(** * opengraph: the document walk and the link tag, verified against the Go source

    The development embeds [opengraph.go] (the aggregate record, [New],
    [Fetch], [Parse], [walk]) and [tag_link.go] ([Link], [LinkTag],
    [Contribute], [IsFavicon], [IsCanonical]) as executable Rocq
    definitions.  A Go [*OpenGraph] that is mutated in place becomes a
    value threaded through the calls; a Go [error] becomes an
    [option string] ([None] is [nil]). *)

From stdpp Require Import base list strings.

Local Open Scope string_scope.
Local Open Scope list_scope.

(** ** golang.org/x/net/html, as far as [walk] and [LinkTag] read it *)

Module Html.

#[local] Set Warnings "-register-all".

Inductive NodeType : Set :=
| ErrorNode | TextNode | DocumentNode | ElementNode
| CommentNode | DoctypeNode | RawNode.

Record Attribute : Set := MkAttribute {
  Namespace : string;
  Key : string;
  Val : string
}.

(** A node with its children in sibling order: the list read by the loop
    [for child := node.FirstChild; child != nil; child = child.NextSibling]. *)
Inductive Node : Set := MkNode {
  Type_ : NodeType;
  Data : string;
  Attr : list Attribute;
  Children : list Node
}.

End Html.
Import Html.

#[global] Instance NodeType_eq_dec : EqDecision NodeType.
Proof. solve_decision. Defined.

(** Go's [error]: [None] is [nil]. *)
Definition error : Set := option string.

(** ** net/http and context, as far as [Fetch] uses them *)

Inductive Context : Set :=
| Background
| Token (id : nat).

Record Request : Set := MkRequest {
  Method : string;
  ReqURL : string;
  ReqCtx : option Context
}.

Record Response : Set := MkResponse {
  ContentType : string;
  Body : string
}.

(** A client is what its [Do] answers to a request. *)
Definition Client : Set := Request -> Response + string.

Definition WithContext (req : Request) (ctx : Context) : Request :=
  MkRequest (Method req) (ReqURL req) (Some ctx).

(** ** The aggregate record *)

(** Modelled from the spec: the declarations of the media entries are not
    in the sources; section 3 gives them a primary URL and the companion
    attributes width, height, type, secure URL and alt text. *)
Record Image : Set := MkImage {
  Image_URL : string;
  Image_SecureURL : string;
  Image_Type : string;
  Image_Width : nat;
  Image_Height : nat;
  Image_Alt : string
}.

(** Modelled from the spec: see [Image]. *)
Record Audio : Set := MkAudio {
  Audio_URL : string;
  Audio_SecureURL : string;
  Audio_Type : string
}.

(** Modelled from the spec: see [Image]. *)
Record Video : Set := MkVideo {
  Video_URL : string;
  Video_SecureURL : string;
  Video_Type : string;
  Video_Width : nat;
  Video_Height : nat
}.

(** Modelled from the spec: the declaration of [Intent] is not in the
    sources; these are the fields [opengraph.go] reads and writes
    ([og.Intent.URL], [og.Intent.Strict], [og.Intent.HTTPClient]). *)
Record Intent : Set := MkIntent {
  in_URL : string;
  in_Strict : bool;
  in_HTTPClient : option Client
}.

(** [type OpenGraph struct].  [opengraph.go] gives [Favicon] a type that
    is not in the sources and declares no [CanonicalURL]; [tag_link.go]
    assigns [link.Href], a string, to [og.Favicon] and to
    [og.CanonicalURL], so both are strings here. *)
Record OpenGraph : Set := MkOpenGraph {
  og_Title : string;
  og_Type : string;
  og_Image : list Image;
  og_URL : string;
  og_Audio : list Audio;
  og_Description : string;
  og_Determiner : string;
  og_Locale : string;
  og_LocaleAlt : list string;
  og_SiteName : string;
  og_Video : list Video;
  og_Favicon : string;
  og_CanonicalURL : string;
  og_Intent : Intent
}.

Definition set_Favicon (og : OpenGraph) (v : string) : OpenGraph :=
  MkOpenGraph (og_Title og) (og_Type og) (og_Image og) (og_URL og)
    (og_Audio og) (og_Description og) (og_Determiner og) (og_Locale og)
    (og_LocaleAlt og) (og_SiteName og) (og_Video og)
    v (og_CanonicalURL og) (og_Intent og).

Definition set_CanonicalURL (og : OpenGraph) (v : string) : OpenGraph :=
  MkOpenGraph (og_Title og) (og_Type og) (og_Image og) (og_URL og)
    (og_Audio og) (og_Description og) (og_Determiner og) (og_Locale og)
    (og_LocaleAlt og) (og_SiteName og) (og_Video og)
    (og_Favicon og) v (og_Intent og).

Definition set_Title (og : OpenGraph) (v : string) : OpenGraph :=
  MkOpenGraph v (og_Type og) (og_Image og) (og_URL og)
    (og_Audio og) (og_Description og) (og_Determiner og) (og_Locale og)
    (og_LocaleAlt og) (og_SiteName og) (og_Video og)
    (og_Favicon og) (og_CanonicalURL og) (og_Intent og).

Definition set_Intent (og : OpenGraph) (i : Intent) : OpenGraph :=
  MkOpenGraph (og_Title og) (og_Type og) (og_Image og) (og_URL og)
    (og_Audio og) (og_Description og) (og_Determiner og) (og_Locale og)
    (og_LocaleAlt og) (og_SiteName og) (og_Video og)
    (og_Favicon og) (og_CanonicalURL og) i.

Definition set_HTTPClient (og : OpenGraph) (c : option Client) : OpenGraph :=
  set_Intent og (MkIntent (in_URL (og_Intent og)) (in_Strict (og_Intent og)) c).

Definition set_Strict (og : OpenGraph) (b : bool) : OpenGraph :=
  set_Intent og (MkIntent (in_URL (og_Intent og)) b (in_HTTPClient (og_Intent og))).

(** [func New(rawurl string) *OpenGraph]: every field but [Intent.URL]
    has Go's zero value. *)
Definition New (rawurl : string) : OpenGraph :=
  MkOpenGraph "" "" [] "" [] "" "" "" [] "" [] "" ""
    (MkIntent rawurl false None).

(** ** opengraph.go: the tag names *)

Definition HTMLMetaTag : string := "meta".
Definition HTMLLinkTag : string := "link".
Definition HTMLTitleTag : string := "title".

(** ** tag_link.go *)

Record Link : Set := MkLink {
  Rel : string;
  Href : string
}.

(** One turn of the loop of [LinkTag]: the [switch attr.Key]. *)
Definition LinkTag_step (link : Link) (attr : Attribute) : Link :=
  if String.eqb (Key attr) "rel" then MkLink (Val attr) (Href link)
  else if String.eqb (Key attr) "href" then MkLink (Rel link) (Val attr)
  else link.

(** [func LinkTag(n *html.Node) *Link]: [new(Link)], then the loop over
    [n.Attr] in order, a later attribute overwriting an earlier one. *)
Definition LinkTag (n : Node) : Link :=
  fold_left LinkTag_step (Attr n) (MkLink "" "").

Definition IsFavicon (link : Link) : bool :=
  String.eqb (Rel link) "shortcut icon" || String.eqb (Rel link) "icon".

Definition IsCanonical (link : Link) : bool :=
  String.eqb (Rel link) "canonical".

(** [func (link *Link) Contribute(og *OpenGraph) error]: the first case
    of the [switch] that holds is taken, and [nil] is returned. *)
Definition Link_Contribute (link : Link) (og : OpenGraph) : OpenGraph * error :=
  (if IsFavicon link then set_Favicon og (Href link)
   else if IsCanonical link then set_CanonicalURL og (Href link)
   else og,
   None).

(** The values of the attributes with key [k], in their order. *)
Definition attr_values (k : string) (attrs : list Attribute) : list string :=
  Val <$> filter (fun a => Key a = k) attrs.

(** The attributes [LinkTag] has a case for. *)
Definition link_attrs (attrs : list Attribute) : list Attribute :=
  filter (fun a => Key a = "rel" \/ Key a = "href") attrs.

(** ** opengraph.go: walk *)

Inductive Tag : Set := TagMeta | TagTitle | TagLink.

#[global] Instance Tag_eq_dec : EqDecision Tag.
Proof. solve_decision. Defined.

(** The guard of [walk]: the test [node.Type == html.ElementNode] and the
    three cases of the [switch], in their order.  [strict] is
    [og.Intent.Strict].  [None] is the fall-through to the loop. *)
Definition select (strict : bool) (node : Node) : option Tag :=
  if decide (Type_ node = ElementNode) then
    if String.eqb (Data node) HTMLMetaTag then Some TagMeta
    else if negb strict && String.eqb (Data node) HTMLTitleTag then Some TagTitle
    else if negb strict && String.eqb (Data node) HTMLLinkTag then Some TagLink
    else None
  else None.

(** A position in a tree: the child indices from the root down. *)
Definition path : Set := list nat.

Fixpoint subtree (t : Node) (q : path) : option Node :=
  match q with
  | [] => Some t
  | i :: q' =>
      match Children t !! i with
      | Some c => subtree c q'
      | None => None
      end
  end.

(** The nodes of a tree with their positions in depth-first pre-order,
    children from left to right; [p] is the position of [t] itself. *)
Fixpoint preorder (p : path) (t : Node) {struct t} : list (path * Node) :=
  (p, t) :: (fix go (i : nat) (cs : list Node) {struct cs} : list (path * Node) :=
          match cs with
          | [] => []
          | c :: rest => preorder (p ++ [i]) c ++ go (S i) rest
          end) 0 (Children t).

Fixpoint preorder_from (p : path) (i : nat) (cs : list Node) : list (path * Node) :=
  match cs with
  | [] => []
  | c :: rest => preorder (p ++ [i]) c ++ preorder_from p (S i) rest
  end.

(** The elements the three cases name, wherever they are in the tree. *)
Fixpoint count_selected (strict : bool) (t : Node) {struct t} : nat :=
  match select strict t with Some _ => 1 | None => 0 end +
  (fix go (cs : list Node) {struct cs} : nat :=
     match cs with
     | [] => 0
     | c :: rest => count_selected strict c + go rest
     end) (Children t).

(** The nodes [walk] hands to a contribution, when the strict flag stays
    what it is: a selected node, and nothing beneath it; under any other
    node, those of the children from left to right. *)
Fixpoint targets (strict : bool) (p : path) (t : Node) {struct t} : list (path * Node) :=
  match select strict t with
  | Some _ => [(p, t)]
  | None =>
      (fix go (i : nat) (cs : list Node) {struct cs} : list (path * Node) :=
         match cs with
         | [] => []
         | c :: rest => targets strict (p ++ [i]) c ++ go (S i) rest
         end) 0 (Children t)
  end.

Fixpoint targets_from (strict : bool) (p : path) (i : nat) (cs : list Node)
  : list (path * Node) :=
  match cs with
  | [] => []
  | c :: rest => targets strict (p ++ [i]) c ++ targets_from strict p (S i) rest
  end.

(** [n] is the node at position [q], it is selected, and none of its
    proper ancestors is. *)
Definition reached (strict : bool) (t : Node) (q : path) (n : Node) : Prop :=
  subtree t q = Some n /\ is_Some (select strict n) /\
  (forall q' n', q' `prefix_of` q -> q' <> q ->
     subtree t q' = Some n' -> select strict n' = None).

Section Walker.

(** [MetaTag(node).Contribute(og)] and [TitleTag(node).Contribute(og)]:
    neither [MetaTag], [TitleTag] nor their [Contribute] is in the
    sources, so [walk] is embedded over whatever they do to the aggregate
    and whatever error they return. *)
Variable MetaContribute : Node -> OpenGraph -> OpenGraph * error.
Variable TitleContribute : Node -> OpenGraph -> OpenGraph * error.

(** The call a case of the [switch] returns. *)
Definition contribute (tag : Tag) (node : Node) (og : OpenGraph) : OpenGraph * error :=
  match tag with
  | TagMeta => MetaContribute node og
  | TagTitle => TitleContribute node og
  | TagLink => Link_Contribute (LinkTag node) og
  end.

(** [func (og *OpenGraph) walk(node *html.Node) error].  A case of the
    [switch] returns the error of its contribution.  Otherwise the loop
    calls [og.walk(child)] on every child, keeps what the call did to the
    aggregate, drops the error it returned, and [walk] returns [nil]. *)
Fixpoint walk (node : Node) (og : OpenGraph) {struct node} : OpenGraph * error :=
  match select (in_Strict (og_Intent og)) node with
  | Some tag => contribute tag node og
  | None =>
      ((fix loop (cs : list Node) (og : OpenGraph) {struct cs} : OpenGraph :=
          match cs with
          | [] => og
          | child :: rest => loop rest (walk child og).1
          end) (Children node) og,
       None)
  end.

(** The loop of [walk] over the children from [child] on. *)
Fixpoint walk_children (cs : list Node) (og : OpenGraph) : OpenGraph :=
  match cs with
  | [] => og
  | child :: rest => walk_children rest (walk child og).1
  end.

(** [walk] with a log: the nodes handed to a contribution, with their
    positions, in the order of the calls.  [p] is the position of
    [node]. *)
Fixpoint walkT (p : path) (node : Node) (og : OpenGraph) {struct node}
  : OpenGraph * error * list (path * Node) :=
  match select (in_Strict (og_Intent og)) node with
  | Some tag => (contribute tag node og, [(p, node)])
  | None =>
      let r :=
        (fix loop (i : nat) (cs : list Node) (og : OpenGraph) {struct cs}
           : OpenGraph * list (path * Node) :=
           match cs with
           | [] => (og, [])
           | child :: rest =>
               let r1 := walkT (p ++ [i]) child og in
               let r2 := loop (S i) rest r1.1.1 in
               (r2.1, r1.2 ++ r2.2)
           end) 0 (Children node) og in
      (r.1, None, r.2)
  end.

Fixpoint walkT_children (p : path) (i : nat) (cs : list Node) (og : OpenGraph)
  : OpenGraph * list (path * Node) :=
  match cs with
  | [] => (og, [])
  | child :: rest =>
      let r1 := walkT (p ++ [i]) child og in
      let r2 := walkT_children p (S i) rest r1.1.1 in
      (r2.1, r1.2 ++ r2.2)
  end.

(** The log of a walk from the root. *)
Definition trace (t : Node) (og : OpenGraph) : list (path * Node) :=
  (walkT [] t og).2.




(** ** opengraph.go: Parse and Fetch *)

(** [html.Parse], [http.NewRequest] and [http.DefaultClient] belong to
    other packages. *)
Variable html_Parse : string -> Node + string.
Variable http_NewRequest : string -> string -> Request + string.
Variable http_DefaultClient : Client.

(** [func (og *OpenGraph) Parse(body io.Reader) error]. *)
Definition Parse (og : OpenGraph) (body : string) : OpenGraph * error :=
  match html_Parse body with
  | inr err => (og, Some err)
  | inl node => walk node og
  end.

(** [func (og *OpenGraph) Fetch(ctx context.Context) error].  The third
    component lists the requests handed to [og.Intent.HTTPClient.Do]. *)
Definition Fetch (og : OpenGraph) (ctx : option Context)
  : OpenGraph * error * list Request :=
  if String.eqb (in_URL (og_Intent og)) "" then
    (og, Some "no URL given yet", [])
  else
    let client := default http_DefaultClient (in_HTTPClient (og_Intent og)) in
    let og := set_HTTPClient og (Some client) in
    match http_NewRequest "GET" (in_URL (og_Intent og)) with
    | inr err => (og, Some err, [])
    | inl req =>
        let ctx := default Background ctx in
        let req := WithContext req ctx in
        match client req with
        | inr err => (og, Some err, [req])
        | inl res =>
            if negb (String.prefix "text/html" (ContentType res)) then
              (og, Some "Content type must be text/html", [req])
            else
              (Parse og (Body res), [req])
        end
    end.

(** [func FetchWithContext(ctx context.Context, rawurl string)], which
    returns an aggregate and an error: the aggregate [&OpenGraph{Intent: Intent{URL:
    rawurl}}], which is the one [New] builds, the method [Fetch] on it,
    and both its aggregate and its error returned. *)
Definition FetchWithContext (ctx : option Context) (rawurl : string)
  : OpenGraph * error * list Request :=
  Fetch (New rawurl) ctx.

(** [func Fetch(rawurl string)], the function of the
    package (the method has the name [Fetch] here): [FetchWithContext]
    with [context.Background()]. *)
Definition Fetch_rawurl (rawurl : string) : OpenGraph * error * list Request :=
  FetchWithContext (Some Background) rawurl.

(** The contributions of a log, one after the other: each node is tested
    by the [switch] against the aggregate as it is by then. *)
Definition replay_step (og : OpenGraph) (x : path * Node) : OpenGraph :=
  match select (in_Strict (og_Intent og)) x.2 with
  | Some tag => (contribute tag x.2 og).1
  | None => og
  end.

Definition replay (log : list (path * Node)) (og : OpenGraph) : OpenGraph :=
  fold_left replay_step log og.

End Walker.

(** ** The title tag *)

(** Modelled from the spec: [TitleTag] and the [Contribute] of its
    fragment are not in the sources.  Section 4.2: the title extractor
    reads the node's text content; section 4.3: title is a scalar field,
    the first occurrence wins, and contribution does not fail. *)
Fixpoint text_content (n : Node) {struct n} : string :=
  match Type_ n with
  | TextNode => Data n
  | _ =>
      (fix go (cs : list Node) {struct cs} : string :=
         match cs with
         | [] => ""
         | c :: rest => (text_content c ++ go rest)%string
         end) (Children n)
  end.

(** Modelled from the spec: see [text_content]. *)
Definition Title_Contribute (n : Node) (og : OpenGraph) : OpenGraph * error :=
  (if String.eqb (og_Title og) "" then set_Title og (text_content n) else og,
   None).

(** ** Sample documents and contributions *)

Module Sample.

Definition element (tag : string) (attrs : list Attribute) (cs : list Node) : Node :=
  MkNode ElementNode tag attrs cs.

Definition text (s : string) : Node := MkNode TextNode s [] [].

Definition document (cs : list Node) : Node := MkNode DocumentNode "" [] cs.

Definition attr (k v : string) : Attribute := MkAttribute "" k v.

(** [<html><head>..head..</head><body>..body..</body></html>] *)
Definition page (head body : list Node) : Node :=
  document [element "html" [] [element "head" [] head; element "body" [] body]].

Definition meta_og_title : Node :=
  element "meta" [attr "property" "og:title"; attr "content" "X"] [].

Definition title_Page : Node := element "title" [] [text "Page"].

Definition link_canonical (href : string) : Node :=
  element "link" [attr "rel" "canonical"; attr "href" href] [].

Definition link_icon (href : string) : Node :=
  element "link" [attr "rel" "icon"; attr "href" href] [].

Definition link_icon_no_href : Node :=
  element "link" [attr "rel" "icon"] [].

Definition link_stylesheet : Node :=
  element "link" [attr "rel" "stylesheet"; attr "href" "/s.css"] [].

(** [<title>Page</title>] and nothing else of interest. *)
Definition title_only : Node := page [title_Page] [].

Definition meta_only : Node := page [meta_og_title] [].

(** Two canonical links in document order. *)
Definition two_canonical : Node :=
  page [link_canonical "https://a"; link_canonical "https://b"] [].

(** [<svg><title><meta ...></title></svg>] in the body: the parser puts
    the [meta] element beneath the [title] element of the picture. *)
Definition meta_beneath_title : Node :=
  page [] [element "svg" [] [element "title" [] [meta_og_title]]].

(** A contribution that changes nothing and succeeds, and one that
    changes nothing and fails. *)
Definition quiet (_ : Node) (og : OpenGraph) : OpenGraph * error := (og, None).

Definition failing (_ : Node) (og : OpenGraph) : OpenGraph * error :=
  (og, Some "contribution failed").

Definition no_parse (_ : string) : Node + string := inr "parse".
Definition no_request (_ _ : string) : Request + string := inr "request".
Definition no_client : Client := fun _ => inr "transport".

(** A parser that answers with one tree, a request builder that accepts
    every URL, and a client that serves one HTML body. *)
Definition parse_to (t : Node) (_ : string) : Node + string := inl t.

Definition any_request (method url : string) : Request + string :=
  inl (MkRequest method url None).

Definition html_client (body : string) : Client :=
  fun _ => inl (MkResponse "text/html; charset=utf-8" body).

(** A page without a [meta], [title] or [link] element. *)
Definition plain : Node := page [] [element "p" [] [text "hello"]].

End Sample.

(** ** What the contributions that are not in the sources may be assumed to do *)

(** A contribution that leaves the two fields written by [Link.Contribute]
    alone, and one that leaves [og.Intent.Strict] alone. *)
Definition keeps_link_fields (C : Node -> OpenGraph -> OpenGraph * error) : Prop :=
  forall n og,
    og_Favicon (C n og).1 = og_Favicon og /\
    og_CanonicalURL (C n og).1 = og_CanonicalURL og.

Definition keeps_mode (C : Node -> OpenGraph -> OpenGraph * error) : Prop :=
  forall n og, in_Strict (og_Intent (C n og).1) = in_Strict (og_Intent og).

Definition keeps_intent (C : Node -> OpenGraph -> OpenGraph * error) : Prop :=
  forall n og, og_Intent (C n og).1 = og_Intent og.

(** ** Reading a log *)

Definition is_link (n : Node) : bool :=
  bool_decide (Type_ n = ElementNode) && String.eqb (Data n) HTMLLinkTag.

(** The link fragments of the link elements of a list of nodes, in order. *)
Definition links_of (ns : list Node) : list Link :=
  LinkTag <$> filter is_link ns.

(** The hrefs of the fragments a predicate of [tag_link.go] accepts. *)
Definition hrefs_of (f : Link -> bool) (ns : list Node) : list string :=
  Href <$> filter f (links_of ns).

Definition has_no_href (n : Node) : Prop :=
  forall a, a ∈ Attr n -> Key a <> "href".

(** No selected node lies beneath a selected node: what holds of the
    [meta] and [link] elements of a parsed page, which have no children,
    and of a [title] element whose children are text. *)
Definition selected_are_outermost (strict : bool) (t : Node) : Prop :=
  forall q n q' n',
    subtree t q = Some n -> is_Some (select strict n) ->
    subtree n q' = Some n' -> is_Some (select strict n') ->
    q' = [].

(** No proper ancestor of the position [q] is selected. *)
Definition nothing_selected_above (strict : bool) (t : Node) (q : path) : Prop :=
  forall q' n', q' `prefix_of` q -> q' <> q ->
    subtree t q' = Some n' -> select strict n' = None.

(** ** Statements about the walk that are too strong *)

(** Every element one of the cases names is handed to a contribution,
    once. *)
Definition every_selected_element_dispatched : Prop :=
  forall M T, keeps_mode M -> keeps_mode T ->
  forall t og,
    length (trace M T t og) = count_selected (in_Strict (og_Intent og)) t.

(** A favicon or canonical link without href changes nothing. *)
Definition link_without_href_changes_nothing : Prop :=
  forall n og,
    IsFavicon (LinkTag n) || IsCanonical (LinkTag n) = true ->
    has_no_href n ->
    (Link_Contribute (LinkTag n) og).1 = og.

(** In every tree the last canonical link and the last favicon link of
    the document give the two fields. *)
Definition last_link_of_document_wins : Prop :=
  forall M T, keeps_link_fields M -> keeps_link_fields T ->
  forall t og,
    (forall a b, hrefs_of IsCanonical (preorder [] t).*2 = [a; b] ->
       og_CanonicalURL (walk M T t og).1 = b) /\
    (forall a, last (hrefs_of IsFavicon (preorder [] t).*2) = Some a ->
       og_Favicon (walk M T t og).1 = a).

(** Wherever it is in the tree, a [meta] element is handed over, and a
    [title] or [link] element is handed over exactly when the strict
    flag is off. *)
Definition dispatch_decided_by_tag_and_flag : Prop :=
  forall M T, keeps_mode M -> keeps_mode T ->
  forall t og q n,
    subtree t q = Some n -> Type_ n = ElementNode ->
    (Data n = "meta" -> (q, n) ∈ trace M T t og) /\
    (Data n = "title" \/ Data n = "link" ->
       ((q, n) ∈ trace M T t og <-> in_Strict (og_Intent og) = false)).

(** * Proofs *)

(** ** Induction over a tree and its lists of children *)

Lemma Node_forall_ind (P : Node -> Prop) :
  (forall ty d a cs, Forall P cs -> P (MkNode ty d a cs)) ->
  forall n, P n.
Proof.
  intros step.
  fix IH 1.
  intros [ty d a cs]. apply step.
  induction cs as [|c cs IHcs]; constructor; [apply IH | exact IHcs].
Qed.

(** ** The equations of the walk *)

Section WalkFacts.

Variable MetaContribute : Node -> OpenGraph -> OpenGraph * error.
Variable TitleContribute : Node -> OpenGraph -> OpenGraph * error.

Local Abbreviation walk := (walk MetaContribute TitleContribute).
Local Abbreviation walk_children := (walk_children MetaContribute TitleContribute).
Local Abbreviation walkT := (walkT MetaContribute TitleContribute).
Local Abbreviation walkT_children := (walkT_children MetaContribute TitleContribute).
Local Abbreviation contribute := (contribute MetaContribute TitleContribute).
Local Abbreviation trace := (trace MetaContribute TitleContribute).

Lemma walk_eq (n : Node) (og : OpenGraph) :
  walk n og =
  match select (in_Strict (og_Intent og)) n with
  | Some tag => contribute tag n og
  | None => (walk_children (Children n) og, None)
  end.
Proof.
  destruct n as [ty d a cs]; simpl.
  destruct (select _ _); reflexivity.
Qed.

Lemma walkT_eq (p : path) (n : Node) (og : OpenGraph) :
  walkT p n og =
  match select (in_Strict (og_Intent og)) n with
  | Some tag => (contribute tag n og, [(p, n)])
  | None =>
      let r := walkT_children p 0 (Children n) og in (r.1, None, r.2)
  end.
Proof.
  destruct n as [ty d a cs]; simpl.
  destruct (select _ _); [reflexivity|].
  generalize 0 og.
  induction cs as [|c cs IH]; intros i og'; simpl; [reflexivity|].
  specialize (IH (S i) (walkT (p ++ [i]) c og').1.1).
  injection IH as IH1 IH2. rewrite IH1, IH2. reflexivity.
Qed.

(** The log does not change what the walk does. *)
Lemma walkT_erase (n : Node) :
  forall p og, (walkT p n og).1 = walk n og.
Proof.
  induction n as [ty d a cs IH] using Node_forall_ind.
  intros p og. rewrite walkT_eq, walk_eq.
  destruct (select _ _); [reflexivity|]. simpl. f_equal.
  generalize 0 og. clear og.
  induction IH as [|c cs Hc _ IHcs]; intros i og; simpl; [reflexivity|].
  rewrite Hc. apply IHcs.
Qed.

Lemma walkT_children_erase (cs : list Node) :
  forall p i og, (walkT_children p i cs og).1 = walk_children cs og.
Proof.
  induction cs as [|c cs IH]; intros p i og; simpl; [reflexivity|].
  rewrite walkT_erase. apply IH.
Qed.

Lemma walk_children_app (cs1 cs2 : list Node) (og : OpenGraph) :
  walk_children (cs1 ++ cs2) og = walk_children cs2 (walk_children cs1 og).
Proof.
  revert og. induction cs1 as [|c cs1 IH]; intros og; simpl; [reflexivity | apply IH].
Qed.

End WalkFacts.

(** ** tag_link.go *)

Lemma eqb_spec (a b : string) : String.eqb a b = true <-> a = b.
Proof. apply String.eqb_eq. Qed.

Lemma IsFavicon_rel (link : Link) :
  IsFavicon link = true <-> Rel link = "shortcut icon" \/ Rel link = "icon".
Proof.
  unfold IsFavicon. rewrite orb_true_iff, !eqb_spec. reflexivity.
Qed.

Lemma IsCanonical_rel (link : Link) :
  IsCanonical link = true <-> Rel link = "canonical".
Proof. unfold IsCanonical. apply eqb_spec. Qed.

(** No rel is a favicon rel and the canonical rel at once. *)
Lemma favicon_not_canonical (link : Link) :
  IsFavicon link = true -> IsCanonical link = false.
Proof.
  rewrite IsFavicon_rel. unfold IsCanonical.
  intros [-> | ->]; reflexivity.
Qed.

Lemma LinkTag_step_Href (link : Link) (a : Attribute) :
  Key a <> "href" -> Href (LinkTag_step link a) = Href link.
Proof.
  intros Hk. unfold LinkTag_step.
  destruct (String.eqb (Key a) "rel"); [reflexivity|].
  destruct (String.eqb (Key a) "href") eqn:E; [|reflexivity].
  apply eqb_spec in E. contradiction.
Qed.

Lemma fold_LinkTag_step_Href (attrs : list Attribute) (link : Link) :
  (forall a, a ∈ attrs -> Key a <> "href") ->
  Href (fold_left LinkTag_step attrs link) = Href link.
Proof.
  revert link. induction attrs as [|a attrs IH]; intros link Hno; simpl.
  - reflexivity.
  - rewrite IH.
    + apply LinkTag_step_Href, Hno. left.
    + intros a' Ha'. apply Hno. right. exact Ha'.
Qed.

Lemma LinkTag_no_href (n : Node) :
  has_no_href n -> Href (LinkTag n) = "".
Proof. intros Hno. unfold LinkTag. rewrite fold_LinkTag_step_Href; done. Qed.

(** C5: contributing a link fragment makes the favicon of the aggregate
    equal to the href exactly in the case that rel is "shortcut icon" or
    "icon", and makes the canonical URL equal to the href exactly in the
    case that rel is "canonical"; outside its case each of the two fields
    is what it was, for any other rel the whole aggregate is what it
    was, every other field is always what it was, and nil is returned. *)
Theorem Link_Contribute_by_rel (link : Link) (og : OpenGraph) :
  let og' := (Link_Contribute link og).1 in
  (Rel link = "shortcut icon" \/ Rel link = "icon" ->
     og_Favicon og' = Href link /\ og_CanonicalURL og' = og_CanonicalURL og) /\
  (Rel link = "canonical" ->
     og_CanonicalURL og' = Href link /\ og_Favicon og' = og_Favicon og) /\
  (~ (Rel link = "shortcut icon" \/ Rel link = "icon") ->
     og_Favicon og' = og_Favicon og) /\
  (Rel link <> "canonical" ->
     og_CanonicalURL og' = og_CanonicalURL og) /\
  (~ (Rel link = "shortcut icon" \/ Rel link = "icon") ->
   Rel link <> "canonical" ->
     og' = og) /\
  (og_Title og' = og_Title og /\ og_Type og' = og_Type og /\
   og_Image og' = og_Image og /\ og_URL og' = og_URL og /\
   og_Audio og' = og_Audio og /\ og_Description og' = og_Description og /\
   og_Determiner og' = og_Determiner og /\ og_Locale og' = og_Locale og /\
   og_LocaleAlt og' = og_LocaleAlt og /\ og_SiteName og' = og_SiteName og /\
   og_Video og' = og_Video og /\ og_Intent og' = og_Intent og) /\
  (Link_Contribute link og).2 = None.
Proof.
  pose proof (IsFavicon_rel link) as Hf.
  pose proof (IsCanonical_rel link) as Hc.
  pose proof (favicon_not_canonical link) as Hx.
  unfold Link_Contribute. simpl.
  destruct (IsFavicon link); destruct (IsCanonical link); simpl.
  - specialize (Hx eq_refl). discriminate Hx.
  - intuition (try reflexivity; try discriminate).
  - intuition (try reflexivity; try discriminate).
  - intuition (try reflexivity; try discriminate).
Qed.

(** C3, as the code has it: a favicon or canonical link element without
    an href attribute yields a fragment with the empty href, and
    contributing it assigns the empty string to the favicon (a favicon
    rel) or to the canonical URL (the canonical rel) and leaves every
    other field as it was; the aggregate is unchanged exactly when that
    field was empty before. *)
Theorem link_without_href_assigns_empty (n : Node) (og : OpenGraph) :
  has_no_href n ->
  Href (LinkTag n) = "" /\
  (IsFavicon (LinkTag n) = true ->
     Link_Contribute (LinkTag n) og = (set_Favicon og "", None) /\
     (set_Favicon og "" = og <-> og_Favicon og = "")) /\
  (IsCanonical (LinkTag n) = true ->
     Link_Contribute (LinkTag n) og = (set_CanonicalURL og "", None) /\
     (set_CanonicalURL og "" = og <-> og_CanonicalURL og = "")).
Proof.
  intros Hno. pose proof (LinkTag_no_href n Hno) as Hh.
  split; [exact Hh|]. unfold Link_Contribute. rewrite Hh. split.
  - intros ->. split; [reflexivity|]. split.
    + intros E. rewrite <- E. reflexivity.
    + intros E. destruct og. simpl in E. subst. reflexivity.
  - intros Hc.
    destruct (IsFavicon (LinkTag n)) eqn:Ef.
    { apply favicon_not_canonical in Ef. congruence. }
    rewrite Hc. split; [reflexivity|]. split.
    + intros E. rewrite <- E. reflexivity.
    + intros E. destruct og. simpl in E. subst. reflexivity.
Qed.

Lemma link_without_href_assigns_empty_witness :
  has_no_href Sample.link_icon_no_href /\
  (Link_Contribute (LinkTag Sample.link_icon_no_href)
     (set_Favicon (New "u") "/f.ico")).1 = set_Favicon (New "u") "".
Proof.
  assert (H : has_no_href Sample.link_icon_no_href).
  { intros a Ha. apply list_elem_of_singleton in Ha. subst a. simpl. discriminate. }
  split; [exact H|].
  destruct (link_without_href_assigns_empty Sample.link_icon_no_href
              (set_Favicon (New "u") "/f.ico") H) as (_ & Hf & _).
  destruct (Hf eq_refl) as [-> _]. reflexivity.
Defined.

(** C3, as worded, fails: a favicon link without href overwrites the
    favicon that was there. *)
Lemma link_without_href_overwrites :
  ~ link_without_href_changes_nothing.
Proof.
  intros H.
  specialize (H Sample.link_icon_no_href (set_Favicon (New "u") "/f.ico")).
  assert (Hno : has_no_href Sample.link_icon_no_href).
  { intros a Ha. apply list_elem_of_singleton in Ha. subst a. simpl. discriminate. }
  specialize (H eq_refl Hno). discriminate H.
Qed.

(** C10: [Link.Contribute] returns nil for every fragment and every
    aggregate, so a walk that hands a node to it returns nil. *)
Theorem Link_Contribute_nil :
  (forall link og, (Link_Contribute link og).2 = None) /\
  (forall M T n og,
     select (in_Strict (og_Intent og)) n = Some TagLink ->
     (walk M T n og).2 = None).
Proof.
  split.
  - intros link og. reflexivity.
  - intros M T n og Hsel. rewrite walk_eq, Hsel. reflexivity.
Qed.

(** ** opengraph.go: Fetch *)

(** C9: with an empty [Intent.URL], [Fetch] returns the error "no URL
    given yet", the aggregate is what it was in every field, and no
    request is handed to the client. *)
Theorem Fetch_without_URL
    (M T : Node -> OpenGraph -> OpenGraph * error)
    (html_Parse : string -> Node + string)
    (http_NewRequest : string -> string -> Request + string)
    (http_DefaultClient : Client)
    (og : OpenGraph) (ctx : option Context) :
  in_URL (og_Intent og) = "" ->
  Fetch M T html_Parse http_NewRequest http_DefaultClient og ctx
  = (og, Some "no URL given yet", []).
Proof.
  intros Hurl. unfold Fetch. rewrite Hurl. reflexivity.
Qed.

Lemma Fetch_without_URL_witness :
  in_URL (og_Intent (New "")) = "" /\
  Fetch Sample.quiet Sample.quiet Sample.no_parse Sample.no_request
    Sample.no_client (New "") None
  = (New "", Some "no URL given yet", []).
Proof.
  split; [reflexivity|].
  apply (Fetch_without_URL Sample.quiet Sample.quiet Sample.no_parse
           Sample.no_request Sample.no_client (New "") None).
  reflexivity.
Defined.

(** ** opengraph.go: walk, the errors *)

Section WalkErrors.

Variable M T : Node -> OpenGraph -> OpenGraph * error.

(** Past the [switch], [walk] returns nil whatever the calls of the loop
    returned. *)
Lemma walk_descend_nil (n : Node) (og : OpenGraph) :
  select (in_Strict (og_Intent og)) n = None ->
  (walk M T n og).2 = None.
Proof. intros Hsel. rewrite walk_eq, Hsel. reflexivity. Qed.

Lemma select_not_element (strict : bool) (n : Node) :
  Type_ n <> ElementNode -> select strict n = None.
Proof.
  intros Hty. unfold select. destruct (decide _); [contradiction | reflexivity].
Qed.

Lemma select_meta (strict : bool) (n : Node) :
  Type_ n = ElementNode -> Data n = HTMLMetaTag ->
  select strict n = Some TagMeta.
Proof.
  intros Hty Hd. unfold select. rewrite Hd.
  destruct (decide _); [reflexivity | contradiction].
Qed.

Lemma select_title (strict : bool) (n : Node) :
  Type_ n = ElementNode -> Data n = HTMLTitleTag ->
  select strict n = if strict then None else Some TagTitle.
Proof.
  intros Hty Hd. unfold select. rewrite Hd.
  destruct (decide _); [|contradiction]. destruct strict; reflexivity.
Qed.

Lemma select_link (strict : bool) (n : Node) :
  Type_ n = ElementNode -> Data n = HTMLLinkTag ->
  select strict n = if strict then None else Some TagLink.
Proof.
  intros Hty Hd. unfold select. rewrite Hd.
  destruct (decide _); [|contradiction]. destruct strict; reflexivity.
Qed.

(** What a selected node is. *)
Lemma select_Some (strict : bool) (n : Node) (tag : Tag) :
  select strict n = Some tag ->
  Type_ n = ElementNode /\
  match tag with
  | TagMeta => Data n = HTMLMetaTag
  | TagTitle => Data n = HTMLTitleTag /\ strict = false
  | TagLink => Data n = HTMLLinkTag /\ strict = false
  end.
Proof.
  unfold select. destruct (decide _) as [Hty|]; [|discriminate].
  destruct (String.eqb (Data n) HTMLMetaTag) eqn:Em.
  { intros [= <-]. apply eqb_spec in Em. done. }
  destruct strict; simpl; [discriminate|].
  destruct (String.eqb (Data n) HTMLTitleTag) eqn:Et.
  { intros [= <-]. apply eqb_spec in Et. done. }
  destruct (String.eqb (Data n) HTMLLinkTag) eqn:El; [|discriminate].
  intros [= <-]. apply eqb_spec in El. done.
Qed.

End WalkErrors.

(** C1, what the code does instead: the walk of a document returns nil
    whatever the contributions return, because the loop drops the error
    of [og.walk(child)].  On the page with one [meta] element and a
    contribution that fails, the element is handed to the contribution,
    the contribution returns an error, and the walk returns nil. *)
Theorem walk_drops_contribution_error :
  (forall M T d a cs og,
     (walk M T (MkNode DocumentNode d a cs) og).2 = None) /\
  trace Sample.failing Sample.quiet Sample.meta_only (New "u")
    = [([0; 0; 0], Sample.meta_og_title)] /\
  (contribute Sample.failing Sample.quiet TagMeta Sample.meta_og_title (New "u")).2
    = Some "contribution failed" /\
  (walk Sample.failing Sample.quiet Sample.meta_only (New "u")).2 = None /\
  (walk Sample.failing Sample.quiet Sample.meta_og_title (New "u")).2
    = Some "contribution failed".
Proof.
  split; [|repeat split; reflexivity].
  intros M T d a cs og. apply walk_descend_nil.
  apply select_not_element. discriminate.
Qed.

(** ** Positions: the pre-order listing and the targets *)

Lemma preorder_eq (p : path) (n : Node) :
  preorder p n = (p, n) :: preorder_from p 0 (Children n).
Proof.
  destruct n as [ty d a cs]; simpl. f_equal. generalize 0.
  induction cs as [|c cs IH]; intros i; simpl; [reflexivity|].
  rewrite IH. reflexivity.
Qed.

Lemma targets_eq (s : bool) (p : path) (n : Node) :
  targets s p n =
  match select s n with
  | Some _ => [(p, n)]
  | None => targets_from s p 0 (Children n)
  end.
Proof.
  destruct n as [ty d a cs]; simpl. destruct (select _ _); [reflexivity|].
  generalize 0.
  induction cs as [|c cs IH]; intros i; simpl; [reflexivity|].
  rewrite IH. reflexivity.
Qed.

Lemma count_selected_eq (s : bool) (n : Node) :
  count_selected s n =
  match select s n with Some _ => 1 | None => 0 end
  + sum_list_with (count_selected s) (Children n).
Proof.
  destruct n as [ty d a cs]. reflexivity.
Qed.

Lemma subtree_cons (n : Node) (j : nat) (q : path) (c : Node) :
  Children n !! j = Some c -> subtree n (j :: q) = subtree c q.
Proof. intros H. simpl. rewrite H. reflexivity. Qed.

Lemma subtree_cons_inv (n : Node) (j : nat) (q : path) (m : Node) :
  subtree n (j :: q) = Some m ->
  exists c, Children n !! j = Some c /\ subtree c q = Some m.
Proof.
  simpl. destruct (Children n !! j) as [c|]; [|discriminate].
  intros H. exists c. done.
Qed.

Lemma subtree_app (n : Node) (q1 q2 : path) (m : Node) :
  subtree n q1 = Some m -> subtree n (q1 ++ q2) = subtree m q2.
Proof.
  revert n. induction q1 as [|j q1 IH]; intros n; simpl.
  - intros [= ->]. reflexivity.
  - destruct (Children n !! j) as [c|]; [apply IH | discriminate].
Qed.

Lemma snoc_app (p : path) (j : nat) (q : path) :
  (p ++ [j]) ++ q = p ++ j :: q.
Proof. rewrite <- app_assoc. reflexivity. Qed.

Lemma elem_of_preorder_from (p : path) (cs : list Node) (x : path * Node) :
  forall i,
    x ∈ preorder_from p i cs <->
    exists j c, cs !! j = Some c /\ x ∈ preorder (p ++ [i + j]) c.
Proof.
  induction cs as [|c cs IH]; intros i; simpl.
  - split; [intros H; inversion H | intros (j & c & H & _); discriminate H].
  - rewrite elem_of_app, IH. split.
    + intros [H | (j & c' & Hj & H)].
      * exists 0, c. rewrite Nat.add_0_r. done.
      * exists (S j), c'. rewrite Nat.add_succ_r. done.
    + intros ([|j] & c' & Hj & H); simpl in Hj.
      * injection Hj as ->. rewrite Nat.add_0_r in H. left. done.
      * right. exists j, c'. rewrite Nat.add_succ_r in H. done.
Qed.

(** The listing holds every node of the tree, each at its position. *)
Lemma elem_of_preorder (n : Node) :
  forall p q m,
    (q, m) ∈ preorder p n <-> exists q', q = p ++ q' /\ subtree n q' = Some m.
Proof.
  induction n as [ty d a cs IH] using Node_forall_ind.
  intros p q m. rewrite preorder_eq, elem_of_cons, elem_of_preorder_from.
  simpl Children. split.
  - intros [[= -> ->] | (j & c & Hj & H)].
    + exists []. rewrite app_nil_r. done.
    + rewrite Forall_lookup in IH. apply (IH _ _ Hj) in H.
      destruct H as (q' & -> & Hq'). exists (j :: q').
      rewrite snoc_app. split; [done|]. simpl. rewrite Hj. done.
  - intros ([|j q'] & -> & Hq').
    + left. rewrite app_nil_r. injection Hq' as <-. done.
    + right. apply subtree_cons_inv in Hq' as (c & Hj & Hq').
      simpl in Hj. exists j, c. split; [done|].
      rewrite Forall_lookup in IH. apply (IH _ _ Hj).
      exists q'. rewrite snoc_app. done.
Qed.

Lemma preorder_prefix (n : Node) (p q : path) (m : Node) :
  (q, m) ∈ preorder p n -> p `prefix_of` q.
Proof.
  intros H. apply elem_of_preorder in H as (q' & -> & _).
  apply prefix_app_r. done.
Qed.

Lemma preorder_from_NoDup (p : path) (cs : list Node) :
  Forall (fun c => forall p, NoDup (preorder p c).*1) cs ->
  forall i, NoDup (preorder_from p i cs).*1.
Proof.
  induction 1 as [|c cs Hc _ IH]; intros i; simpl; [constructor|].
  rewrite fmap_app. apply NoDup_app. split; [apply Hc|]. split; [|apply IH].
  intros q Hq Hq'.
  apply list_elem_of_fmap in Hq as ([q1 m1] & -> & H1).
  apply list_elem_of_fmap in Hq' as ([q2 m2] & E & H2). simpl in E. subst q2.
  apply preorder_prefix in H1.
  apply elem_of_preorder_from in H2 as (j & c' & _ & H2).
  apply preorder_prefix in H2.
  destruct H1 as [k1 E1], H2 as [k2 E2]. rewrite E1 in E2.
  rewrite !snoc_app in E2. apply app_inv_head in E2.
  injection E2 as E2 _. lia.
Qed.

(** No position is listed twice. *)
Lemma preorder_NoDup (n : Node) :
  forall p, NoDup (preorder p n).*1.
Proof.
  induction n as [ty d a cs IH] using Node_forall_ind.
  intros p. rewrite preorder_eq. simpl. constructor.
  - intros Hin. apply list_elem_of_fmap in Hin as ([q m] & E & H).
    simpl in E. subst q.
    apply elem_of_preorder_from in H as (j & c & _ & H).
    apply preorder_prefix in H. destruct H as [k E].
    rewrite snoc_app in E. rewrite <- (app_nil_r p) in E at 1.
    apply app_inv_head in E. discriminate E.
  - apply preorder_from_NoDup. exact IH.
Qed.

(** ** The log of a walk *)

Section Log.

Variable M T : Node -> OpenGraph -> OpenGraph * error.

Local Abbreviation walk := (walk M T).
Local Abbreviation walk_children := (walk_children M T).
Local Abbreviation walkT := (walkT M T).
Local Abbreviation walkT_children := (walkT_children M T).

(** An entry of the loop's log is an entry of the log of one child,
    walked from the aggregate the children before it left. *)
Lemma elem_of_walkT_children (p : path) (cs : list Node) (x : path * Node) :
  forall i og,
    x ∈ (walkT_children p i cs og).2 <->
    exists j c, cs !! j = Some c /\
      x ∈ (walkT (p ++ [i + j]) c (walk_children (take j cs) og)).2.
Proof.
  induction cs as [|c cs IH]; intros i og; simpl.
  - split; [intros H; inversion H | intros (j & c & H & _); discriminate H].
  - rewrite elem_of_app, IH, walkT_erase. split.
    + intros [H | (j & c' & Hj & H)].
      * exists 0, c. rewrite Nat.add_0_r. done.
      * exists (S j), c'. rewrite Nat.add_succ_r. done.
    + intros ([|j] & c' & Hj & H); simpl in Hj, H.
      * injection Hj as ->. rewrite Nat.add_0_r in H. left. done.
      * right. exists j, c'. rewrite Nat.add_succ_r in H. done.
Qed.

Lemma walkT_children_sublist (p : path) (cs : list Node) :
  Forall (fun c => forall p og, (walkT p c og).2 `sublist_of` preorder p c) cs ->
  forall i og, (walkT_children p i cs og).2 `sublist_of` preorder_from p i cs.
Proof.
  induction 1 as [|c cs Hc _ IH]; intros i og; simpl; [constructor|].
  apply sublist_app; [apply Hc | apply IH].
Qed.

(** The contributions are called in the order of the pre-order listing. *)
Lemma walkT_sublist (n : Node) :
  forall p og, (walkT p n og).2 `sublist_of` preorder p n.
Proof.
  induction n as [ty d a cs IH] using Node_forall_ind.
  intros p og. rewrite walkT_eq, preorder_eq.
  destruct (select _ _); simpl.
  - apply sublist_skip, sublist_nil_l.
  - apply sublist_cons, walkT_children_sublist, IH.
Qed.

Lemma walkT_log_subtree (n : Node) (p : path) (og : OpenGraph) (q : path) (m : Node) :
  (q, m) ∈ (walkT p n og).2 ->
  exists q', q = p ++ q' /\ subtree n q' = Some m.
Proof.
  intros H. apply elem_of_preorder.
  eapply elem_of_sublist; [exact H | apply walkT_sublist].
Qed.

(** Only elements named [meta], [title] or [link] are in a log. *)
Lemma walkT_log_selected (n : Node) :
  forall p og q m,
    (q, m) ∈ (walkT p n og).2 ->
    Type_ m = ElementNode /\
    (Data m = HTMLMetaTag \/ Data m = HTMLTitleTag \/ Data m = HTMLLinkTag).
Proof.
  induction n as [ty d a cs IH] using Node_forall_ind.
  intros p og q m. rewrite walkT_eq.
  destruct (select _ _) as [tag|] eqn:Hsel; simpl.
  - intros Hin. apply list_elem_of_singleton in Hin. injection Hin as -> ->.
    apply select_Some in Hsel as [Hty Hd]. split; [exact Hty|].
    destruct tag; tauto.
  - intros Hin. apply elem_of_walkT_children in Hin as (j & c & Hj & Hin).
    rewrite Forall_lookup in IH. exact (IH _ _ Hj _ _ _ _ Hin).
Qed.

(** Nothing beneath a node of the log is in the log. *)
Lemma walkT_log_outermost (n : Node) :
  forall p og q1 m1 q2 m2,
    (q1, m1) ∈ (walkT p n og).2 ->
    (q2, m2) ∈ (walkT p n og).2 ->
    q1 `prefix_of` q2 ->
    q1 = q2.
Proof.
  induction n as [ty d a cs IH] using Node_forall_ind.
  intros p og q1 m1 q2 m2. rewrite walkT_eq.
  destruct (select _ _) as [tag|]; simpl.
  - intros H1 H2 _.
    apply list_elem_of_singleton in H1. apply list_elem_of_singleton in H2.
    congruence.
  - intros H1 H2 Hpre.
    apply elem_of_walkT_children in H1 as (j1 & c1 & Hj1 & H1).
    apply elem_of_walkT_children in H2 as (j2 & c2 & Hj2 & H2).
    simpl in H1, H2.
    assert (j1 = j2) as <-.
    { apply walkT_log_subtree in H1 as (r1 & -> & _).
      apply walkT_log_subtree in H2 as (r2 & -> & _).
      rewrite !snoc_app in Hpre. apply prefix_app_inv in Hpre.
      apply prefix_cons_inv_1 in Hpre. exact Hpre. }
    assert (c1 = c2) as <- by congruence.
    rewrite Forall_lookup in IH.
    exact (IH _ _ Hj1 _ _ _ _ _ _ H1 H2 Hpre).
Qed.

Lemma walkT_log_NoDup (n : Node) (p : path) (og : OpenGraph) :
  NoDup (walkT p n og).2.*1.
Proof.
  eapply sublist_NoDup; [apply (preorder_NoDup n p)|].
  apply fmap_sublist, walkT_sublist.
Qed.

End Log.

(** ** opengraph.go: walk, the order and the strict flag *)

Lemma walkT_selected M T (p : path) (n : Node) (og : OpenGraph) (tag : Tag) :
  select (in_Strict (og_Intent og)) n = Some tag ->
  walkT M T p n og = (contribute M T tag n og, [(p, n)]).
Proof. intros H. rewrite walkT_eq, H. reflexivity. Qed.

Lemma walkT_descend M T (p : path) (n : Node) (og : OpenGraph) :
  select (in_Strict (og_Intent og)) n = None ->
  walkT M T p n og =
  ((walkT_children M T p 0 (Children n) og).1, None,
   (walkT_children M T p 0 (Children n) og).2).
Proof. intros H. rewrite walkT_eq, H. reflexivity. Qed.

(** A node that is passed over is not in its own log. *)
Lemma walkT_descend_not_logged M T (p : path) (n m : Node) (og : OpenGraph) :
  select (in_Strict (og_Intent og)) n = None ->
  (p, m) ∉ (walkT M T p n og).2.
Proof.
  intros Hsel Hin. rewrite walkT_descend in Hin by exact Hsel. simpl in Hin.
  apply elem_of_walkT_children in Hin as (j & c & _ & Hin).
  apply walkT_log_subtree in Hin as (q' & E & _).
  rewrite snoc_app in E. rewrite <- (app_nil_r p) in E at 1.
  apply app_inv_head in E. discriminate E.
Qed.

(** ** opengraph.go: walk, which nodes are handed over *)

Lemma Link_Contribute_mode (link : Link) (og : OpenGraph) :
  in_Strict (og_Intent (Link_Contribute link og).1) = in_Strict (og_Intent og).
Proof.
  unfold Link_Contribute. simpl.
  destruct (IsFavicon link); [reflexivity|].
  destruct (IsCanonical link); reflexivity.
Qed.

Lemma elem_of_targets_from (s : bool) (p : path) (cs : list Node) (x : path * Node) :
  forall i,
    x ∈ targets_from s p i cs <->
    exists j c, cs !! j = Some c /\ x ∈ targets s (p ++ [i + j]) c.
Proof.
  induction cs as [|c cs IH]; intros i; simpl.
  - split; [intros H; inversion H | intros (j & c & H & _); discriminate H].
  - rewrite elem_of_app, IH. split.
    + intros [H | (j & c' & Hj & H)].
      * exists 0, c. rewrite Nat.add_0_r. done.
      * exists (S j), c'. rewrite Nat.add_succ_r. done.
    + intros ([|j] & c' & Hj & H); simpl in Hj.
      * injection Hj as ->. rewrite Nat.add_0_r in H. left. done.
      * right. exists j, c'. rewrite Nat.add_succ_r in H. done.
Qed.

Lemma reached_root (s : bool) (t m : Node) :
  reached s t [] m <-> m = t /\ is_Some (select s t).
Proof.
  unfold reached. simpl. split.
  - intros ([= ->] & Hsel & _). done.
  - intros [-> Hsel]. split; [done|]. split; [done|].
    intros q' n' Hpre Hne. apply prefix_nil_inv in Hpre. contradiction.
Qed.

Lemma reached_child (s : bool) (t c m : Node) (j : nat) (r : path) :
  select s t = None ->
  Children t !! j = Some c ->
  reached s t (j :: r) m <-> reached s c r m.
Proof.
  intros Hsel Hj. unfold reached. rewrite (subtree_cons t j r c Hj). split.
  - intros (Hsub & Hm & Hanc). split; [done|]. split; [done|].
    intros r' n' Hpre Hne Hsub'.
    apply (Hanc (j :: r') n').
    + apply prefix_cons, Hpre.
    + congruence.
    + rewrite (subtree_cons t j r' c Hj). exact Hsub'.
  - intros (Hsub & Hm & Hanc). split; [done|]. split; [done|].
    intros [|j' r'] n' Hpre Hne Hsub'.
    + simpl in Hsub'. congruence.
    + pose proof (prefix_cons_inv_1 _ _ _ _ Hpre) as ->.
      apply prefix_cons_inv_2 in Hpre.
      rewrite (subtree_cons t j r' c Hj) in Hsub'.
      apply (Hanc r' n'); [done | congruence | done].
Qed.

(** The targets are the selected nodes without a selected proper ancestor. *)
Lemma elem_of_targets (s : bool) (t : Node) :
  forall p q m,
    (q, m) ∈ targets s p t <-> exists q', q = p ++ q' /\ reached s t q' m.
Proof.
  induction t as [ty d a cs IH] using Node_forall_ind.
  intros p q m. rewrite targets_eq.
  destruct (select s _) as [tag|] eqn:Hsel.
  - rewrite list_elem_of_singleton. split.
    + intros [= -> ->]. exists []. rewrite app_nil_r. split; [done|].
      apply reached_root. rewrite Hsel. done.
    + intros ([|j r] & -> & Hr).
      * apply reached_root in Hr as [-> _]. rewrite app_nil_r. done.
      * destruct Hr as (_ & _ & Hanc).
        specialize (Hanc [] _ (prefix_nil _) ltac:(discriminate) eq_refl).
        congruence.
  - rewrite elem_of_targets_from. simpl Children. split.
    + intros (j & c & Hj & Hin). simpl in Hin.
      rewrite Forall_lookup in IH. apply (IH _ _ Hj) in Hin as (r & -> & Hr).
      exists (j :: r). rewrite snoc_app. split; [done|].
      apply (reached_child s _ c m j r Hsel Hj). exact Hr.
    + intros ([|j r] & -> & Hr).
      * apply reached_root in Hr as [_ [tag Htag]]. congruence.
      * pose proof Hr as (Hsub & _).
        apply subtree_cons_inv in Hsub as (c & Hj & _).
        exists j, c. split; [exact Hj|]. simpl.
        rewrite Forall_lookup in IH. apply (IH _ _ Hj).
        exists r. rewrite snoc_app. split; [done|].
        apply (reached_child s _ c m j r Hsel Hj). exact Hr.
Qed.

Section Targets.

Variable M T : Node -> OpenGraph -> OpenGraph * error.
Hypothesis M_mode : keeps_mode M.
Hypothesis T_mode : keeps_mode T.

Lemma contribute_mode (tag : Tag) (n : Node) (og : OpenGraph) :
  in_Strict (og_Intent (contribute M T tag n og).1) = in_Strict (og_Intent og).
Proof.
  destruct tag; simpl; [apply M_mode | apply T_mode | apply Link_Contribute_mode].
Qed.

Lemma walkT_children_targets (p : path) (cs : list Node) :
  Forall (fun c => forall p og,
            (walkT M T p c og).2 = targets (in_Strict (og_Intent og)) p c /\
            in_Strict (og_Intent (walkT M T p c og).1.1) = in_Strict (og_Intent og)) cs ->
  forall i og,
    (walkT_children M T p i cs og).2 = targets_from (in_Strict (og_Intent og)) p i cs /\
    in_Strict (og_Intent (walkT_children M T p i cs og).1) = in_Strict (og_Intent og).
Proof.
  induction 1 as [|c cs Hc _ IH]; intros i og; simpl; [done|].
  destruct (Hc (p ++ [i]) og) as [E1 E2].
  destruct (IH (S i) (walkT M T (p ++ [i]) c og).1.1) as [E3 E4].
  rewrite E1, E3, E4, E2. done.
Qed.

(** With the flag left alone, the log of a walk is the list of targets. *)
Lemma walkT_targets (n : Node) :
  forall p og,
    (walkT M T p n og).2 = targets (in_Strict (og_Intent og)) p n /\
    in_Strict (og_Intent (walkT M T p n og).1.1) = in_Strict (og_Intent og).
Proof.
  induction n as [ty d a cs IH] using Node_forall_ind.
  intros p og. rewrite walkT_eq, targets_eq.
  destruct (select _ _) as [tag|]; simpl.
  - split; [reflexivity | apply contribute_mode].
  - apply walkT_children_targets, IH.
Qed.

End Targets.

(** ** Counting the targets *)

Lemma sum_list_with_zero {A} (f : A -> nat) (l : list A) :
  (forall x, x ∈ l -> f x = 0) -> sum_list_with f l = 0.
Proof.
  induction l as [|x l IH]; intros H; simpl; [reflexivity|].
  rewrite (H x) by left. rewrite IH; [reflexivity|].
  intros y Hy. apply H. right. exact Hy.
Qed.

(** A tree without a selected node counts for nothing. *)
Lemma count_selected_zero (s : bool) (t : Node) :
  (forall q n, subtree t q = Some n -> select s n = None) ->
  count_selected s t = 0.
Proof.
  induction t as [ty d a cs IH] using Node_forall_ind.
  intros Hnone. rewrite count_selected_eq.
  rewrite (Hnone [] _ eq_refl). simpl.
  apply sum_list_with_zero. intros c Hc.
  apply list_elem_of_lookup in Hc as [j Hj].
  rewrite Forall_lookup in IH. apply (IH _ _ Hj).
  intros q n Hq. apply (Hnone (j :: q)). simpl. rewrite Hj. exact Hq.
Qed.

Lemma selected_are_outermost_child (s : bool) (t c : Node) (j : nat) :
  Children t !! j = Some c ->
  selected_are_outermost s t -> selected_are_outermost s c.
Proof.
  intros Hj Hout q n q' n' Hq Hn Hq' Hn'.
  apply (Hout (j :: q) n q' n'); try done.
  rewrite (subtree_cons t j q c Hj). exact Hq.
Qed.

Lemma targets_from_length (s : bool) (p : path) (cs : list Node) :
  Forall (fun c => forall p, length (targets s p c) = count_selected s c) cs ->
  forall i, length (targets_from s p i cs) = sum_list_with (count_selected s) cs.
Proof.
  induction 1 as [|c cs Hc _ IH]; intros i; simpl; [reflexivity|].
  rewrite length_app, Hc, IH. reflexivity.
Qed.

(** Where no selected node lies beneath another, the targets are all the
    selected nodes. *)
Lemma targets_length (s : bool) (t : Node) :
  selected_are_outermost s t ->
  forall p, length (targets s p t) = count_selected s t.
Proof.
  induction t as [ty d a cs IH] using Node_forall_ind.
  intros Hout p. rewrite targets_eq, count_selected_eq.
  destruct (select s _) as [tag|] eqn:Hsel; simpl.
  - rewrite sum_list_with_zero; [reflexivity|].
    intros c Hc. apply list_elem_of_lookup in Hc as [j Hj].
    apply count_selected_zero. intros q n Hq.
    destruct (select s n) as [tag'|] eqn:Hn; [|reflexivity].
    assert (E : j :: q = []); [|discriminate E].
    apply (Hout [] (MkNode ty d a cs) (j :: q) n); simpl; try done.
    rewrite Hj. exact Hq.
  - apply targets_from_length.
    rewrite Forall_lookup in IH. apply Forall_lookup. intros j c Hj.
    apply (IH _ _ Hj).
    eapply selected_are_outermost_child; [|exact Hout]. exact Hj.
Qed.

(** C2, as the code has it: when the contributions leave the strict flag
    alone, the walk hands to a contribution exactly the selected elements
    ([meta]; [title] and [link] when the flag is off) that have no
    selected proper ancestor, each of them once and no position twice; an
    element beneath one that is handed over is passed over.  Where no
    selected element lies beneath another, their number is the number of
    selected elements of the tree. *)
Theorem walk_dispatches_outermost
    (M T : Node -> OpenGraph -> OpenGraph * error) (t : Node) (og : OpenGraph) :
  keeps_mode M -> keeps_mode T ->
  trace M T t og = targets (in_Strict (og_Intent og)) [] t /\
  NoDup (trace M T t og).*1 /\
  (forall q n,
     (q, n) ∈ trace M T t og <-> reached (in_Strict (og_Intent og)) t q n) /\
  (selected_are_outermost (in_Strict (og_Intent og)) t ->
     length (trace M T t og) = count_selected (in_Strict (og_Intent og)) t).
Proof.
  intros HM HT.
  destruct (walkT_targets M T HM HT t [] og) as [E _].
  unfold trace. split; [exact E|]. split; [apply walkT_log_NoDup|]. split.
  - intros q n. rewrite E, elem_of_targets. simpl. split.
    + intros (q' & -> & Hr). exact Hr.
    + intros Hr. exists q. done.
  - intros Hout. rewrite E. apply targets_length, Hout.
Qed.

Lemma quiet_keeps_mode : keeps_mode Sample.quiet.
Proof. intros n og. reflexivity. Qed.

Lemma quiet_keeps_link_fields : keeps_link_fields Sample.quiet.
Proof. intros n og. split; reflexivity. Qed.

Lemma walk_dispatches_outermost_witness :
  keeps_mode Sample.quiet /\
  trace Sample.quiet Sample.quiet Sample.meta_beneath_title (New "u")
  = [([0; 1; 0; 0], Sample.element "title" [] [Sample.meta_og_title])].
Proof.
  split; [exact quiet_keeps_mode|].
  destruct (walk_dispatches_outermost Sample.quiet Sample.quiet
              Sample.meta_beneath_title (New "u")
              quiet_keeps_mode quiet_keeps_mode) as [E _].
  rewrite E. reflexivity.
Defined.

(** C2, as worded, fails: the [meta] element beneath the [title] element
    of a picture is never handed over, so one contribution is called for
    two selected elements. *)
Lemma selected_element_beneath_title_skipped :
  ~ every_selected_element_dispatched.
Proof.
  intros H.
  specialize (H Sample.quiet Sample.quiet quiet_keeps_mode quiet_keeps_mode
                Sample.meta_beneath_title (New "u")).
  vm_compute in H. discriminate H.
Qed.

(** ** The links of a walk: the favicon and the canonical URL *)

Lemma hrefs_of_app (f : Link -> bool) (l1 l2 : list Node) :
  hrefs_of f (l1 ++ l2) = hrefs_of f l1 ++ hrefs_of f l2.
Proof.
  unfold hrefs_of, links_of. rewrite filter_app, fmap_app, filter_app, fmap_app.
  reflexivity.
Qed.

Lemma hrefs_of_singleton (f : Link -> bool) (n : Node) :
  hrefs_of f [n] = if is_link n && f (LinkTag n) then [Href (LinkTag n)] else [].
Proof.
  unfold hrefs_of, links_of.
  rewrite filter_cons, filter_nil.
  destruct (is_link n) eqn:E; simpl; [|reflexivity].
  rewrite filter_cons, filter_nil. destruct (f (LinkTag n)); reflexivity.
Qed.

Lemma default_last_app {A} (a : A) (l1 l2 : list A) :
  default a (last (l1 ++ l2)) = default (default a (last l1)) (last l2).
Proof. rewrite last_app. destruct (last l2); reflexivity. Qed.

Lemma is_link_selected (s : bool) (n : Node) (tag : Tag) :
  select s n = Some tag ->
  is_link n = match tag with TagLink => true | _ => false end.
Proof.
  intros Hsel. apply select_Some in Hsel as [Hty Hd]. unfold is_link.
  destruct tag.
  - rewrite Hd. rewrite andb_false_r. reflexivity.
  - destruct Hd as [-> _]. rewrite andb_false_r. reflexivity.
  - destruct Hd as [-> _]. rewrite bool_decide_eq_true_2 by exact Hty. reflexivity.
Qed.

Section LinkFields.

Variable M T : Node -> OpenGraph -> OpenGraph * error.
Hypothesis M_links : keeps_link_fields M.
Hypothesis T_links : keeps_link_fields T.

(** What one contribution does to the two fields. *)
Lemma contribute_link_fields (s : bool) (tag : Tag) (n : Node) (og : OpenGraph) :
  select s n = Some tag ->
  og_CanonicalURL (contribute M T tag n og).1
    = default (og_CanonicalURL og) (last (hrefs_of IsCanonical [n])) /\
  og_Favicon (contribute M T tag n og).1
    = default (og_Favicon og) (last (hrefs_of IsFavicon [n])).
Proof.
  intros Hsel. rewrite !hrefs_of_singleton, (is_link_selected s n tag Hsel).
  destruct tag; simpl.
  - destruct (M_links n og). done.
  - destruct (T_links n og). done.
  - unfold Link_Contribute. simpl.
    destruct (IsFavicon (LinkTag n)) eqn:Ef.
    + rewrite (favicon_not_canonical _ Ef). done.
    + destruct (IsCanonical (LinkTag n)); done.
Qed.

Lemma walkT_children_link_fields (p : path) (cs : list Node) :
  Forall (fun c => forall p og,
    og_CanonicalURL (walkT M T p c og).1.1
      = default (og_CanonicalURL og)
          (last (hrefs_of IsCanonical (walkT M T p c og).2.*2)) /\
    og_Favicon (walkT M T p c og).1.1
      = default (og_Favicon og)
          (last (hrefs_of IsFavicon (walkT M T p c og).2.*2))) cs ->
  forall i og,
    og_CanonicalURL (walkT_children M T p i cs og).1
      = default (og_CanonicalURL og)
          (last (hrefs_of IsCanonical (walkT_children M T p i cs og).2.*2)) /\
    og_Favicon (walkT_children M T p i cs og).1
      = default (og_Favicon og)
          (last (hrefs_of IsFavicon (walkT_children M T p i cs og).2.*2)).
Proof.
  induction 1 as [|c cs Hc _ IH]; intros i og; simpl; [done|].
  destruct (Hc (p ++ [i]) og) as [E1 E2].
  destruct (IH (S i) (walkT M T (p ++ [i]) c og).1.1) as [E3 E4].
  rewrite fmap_app, !hrefs_of_app, !default_last_app, E3, E4, E1, E2. done.
Qed.

(** After a walk each field holds the href of the last link of its kind
    in the log, or what it held before. *)
Lemma walkT_link_fields (n : Node) :
  forall p og,
    og_CanonicalURL (walkT M T p n og).1.1
      = default (og_CanonicalURL og)
          (last (hrefs_of IsCanonical (walkT M T p n og).2.*2)) /\
    og_Favicon (walkT M T p n og).1.1
      = default (og_Favicon og)
          (last (hrefs_of IsFavicon (walkT M T p n og).2.*2)).
Proof.
  induction n as [ty d a cs IH] using Node_forall_ind.
  intros p og. rewrite walkT_eq.
  destruct (select _ _) as [tag|] eqn:Hsel; simpl.
  - eapply contribute_link_fields. exact Hsel.
  - apply walkT_children_link_fields, IH.
Qed.

End LinkFields.

Lemma filter_is_link_nil (l : list Node) :
  (forall n, n ∈ l -> is_link n = false) -> filter is_link l = [].
Proof.
  induction l as [|n l IH]; intros H; [reflexivity|].
  rewrite filter_cons, (H n) by left. simpl. apply IH.
  intros m Hm. apply H. right. exact Hm.
Qed.

(** With the flag on, no link is among the targets. *)
Lemma targets_strict_no_link (t : Node) (p : path) (f : Link -> bool) :
  hrefs_of f (targets true p t).*2 = [].
Proof.
  unfold hrefs_of, links_of. rewrite filter_is_link_nil; [reflexivity|].
  intros n Hn. apply list_elem_of_fmap in Hn as ([q m] & -> & Hin). simpl.
  apply elem_of_targets in Hin as (q' & _ & _ & [tag Htag] & _).
  rewrite (is_link_selected true m tag Htag).
  apply select_Some in Htag as [_ Hd].
  destruct tag; [reflexivity | destruct Hd; discriminate | destruct Hd; discriminate].
Qed.

(** C6, as the code has it: when the contributions for [meta] and
    [title] leave the favicon, the canonical URL and the strict flag
    alone, the canonical URL after the walk is the href of the last
    canonical link element the walk handed to [Link.Contribute], and the
    favicon the href of the last favicon link element it handed over;
    each field is what it was when there is no such element, and there is
    none when the strict flag is on. *)
Theorem walk_last_dispatched_link_wins
    (M T : Node -> OpenGraph -> OpenGraph * error) (t : Node) (og : OpenGraph) :
  keeps_link_fields M -> keeps_link_fields T ->
  keeps_mode M -> keeps_mode T ->
  og_CanonicalURL (walk M T t og).1
    = default (og_CanonicalURL og)
        (last (hrefs_of IsCanonical (trace M T t og).*2)) /\
  og_Favicon (walk M T t og).1
    = default (og_Favicon og)
        (last (hrefs_of IsFavicon (trace M T t og).*2)) /\
  (in_Strict (og_Intent og) = true ->
     og_CanonicalURL (walk M T t og).1 = og_CanonicalURL og /\
     og_Favicon (walk M T t og).1 = og_Favicon og).
Proof.
  intros HM HT HMm HTm.
  destruct (walkT_link_fields M T HM HT t [] og) as [Ec Ef].
  rewrite walkT_erase in Ec, Ef. unfold trace.
  split; [exact Ec|]. split; [exact Ef|].
  intros Hs. rewrite Ec, Ef.
  destruct (walkT_targets M T HMm HTm t [] og) as [E _].
  rewrite E, Hs, !targets_strict_no_link. done.
Qed.

Lemma walk_last_dispatched_link_wins_witness :
  keeps_link_fields Sample.quiet /\ keeps_mode Sample.quiet /\
  og_CanonicalURL
    (walk Sample.quiet Sample.quiet Sample.two_canonical (New "u")).1
  = "https://b".
Proof.
  split; [exact quiet_keeps_link_fields|]. split; [exact quiet_keeps_mode|].
  destruct (walk_last_dispatched_link_wins Sample.quiet Sample.quiet
              Sample.two_canonical (New "u")
              quiet_keeps_link_fields quiet_keeps_link_fields
              quiet_keeps_mode quiet_keeps_mode) as [E _].
  rewrite E. reflexivity.
Defined.

(** C6, as worded, fails: with the strict flag on, the two canonical
    links of the page are passed over and the canonical URL stays empty. *)
Lemma canonical_links_passed_over_when_strict :
  ~ last_link_of_document_wins.
Proof.
  intros H.
  destruct (H Sample.quiet Sample.quiet
              quiet_keeps_link_fields quiet_keeps_link_fields
              Sample.two_canonical (set_Strict (New "u") true)) as [Hc _].
  specialize (Hc "https://a" "https://b" eq_refl).
  vm_compute in Hc. discriminate Hc.
Qed.

(** * Further properties of the code *)

(** ** tag_link.go: the fragment *)

Lemma default_last_cons {A} (a x : A) (l : list A) :
  default a (last (x :: l)) = default x (last l).
Proof. apply (default_last_app a [x] l). Qed.

Lemma attr_values_cons (k : string) (a : Attribute) (attrs : list Attribute) :
  attr_values k (a :: attrs) =
  if decide (Key a = k) then Val a :: attr_values k attrs else attr_values k attrs.
Proof.
  unfold attr_values. rewrite filter_cons.
  destruct (decide (Key a = k)); reflexivity.
Qed.

Lemma fold_LinkTag_step_last (attrs : list Attribute) :
  forall link,
    Rel (fold_left LinkTag_step attrs link)
      = default (Rel link) (last (attr_values "rel" attrs)) /\
    Href (fold_left LinkTag_step attrs link)
      = default (Href link) (last (attr_values "href" attrs)).
Proof.
  induction attrs as [|a attrs IH]; intros link; simpl; [done|].
  destruct (IH (LinkTag_step link a)) as [-> ->].
  rewrite !attr_values_cons. unfold LinkTag_step.
  destruct (String.eqb (Key a) "rel") eqn:Er.
  - apply eqb_spec in Er. rewrite Er.
    rewrite decide_True by done. rewrite decide_False by done.
    rewrite default_last_cons. done.
  - assert (Key a <> "rel") as Hr.
    { intros E. apply eqb_spec in E. congruence. }
    rewrite (decide_False (P := Key a = "rel")) by done.
    destruct (String.eqb (Key a) "href") eqn:Eh.
    + apply eqb_spec in Eh. rewrite Eh.
      rewrite decide_True by done. rewrite default_last_cons. done.
    + assert (Key a <> "href") as Hh.
      { intros E. apply eqb_spec in E. congruence. }
      rewrite decide_False by done. done.
Qed.

(** X1: the rel of the fragment is the value of the last attribute with
    key "rel", its href the value of the last attribute with key "href",
    and each is empty when the element has no such attribute. *)
Theorem LinkTag_last_attribute_wins (n : Node) :
  Rel (LinkTag n) = default "" (last (attr_values "rel" (Attr n))) /\
  Href (LinkTag n) = default "" (last (attr_values "href" (Attr n))).
Proof. unfold LinkTag. apply (fold_LinkTag_step_last (Attr n) (MkLink "" "")). Qed.

Lemma fold_LinkTag_step_link_attrs (attrs : list Attribute) :
  forall link,
    fold_left LinkTag_step (link_attrs attrs) link
    = fold_left LinkTag_step attrs link.
Proof.
  induction attrs as [|a attrs IH]; intros link; [reflexivity|].
  unfold link_attrs. rewrite filter_cons.
  destruct (decide (Key a = "rel" \/ Key a = "href")) as [Hk | Hk]; simpl.
  - apply IH.
  - fold (link_attrs attrs). rewrite IH. f_equal.
    unfold LinkTag_step.
    destruct (String.eqb (Key a) "rel") eqn:Er.
    { apply eqb_spec in Er. tauto. }
    destruct (String.eqb (Key a) "href") eqn:Eh; [|reflexivity].
    apply eqb_spec in Eh. tauto.
Qed.

(** X2: [LinkTag] reads the attributes with key "rel" or "href" and no
    other part of the node: the node type, the tag name, the children
    and every other attribute can be anything. *)
Theorem LinkTag_reads_rel_and_href
    (ty ty' : NodeType) (d d' : string) (attrs : list Attribute)
    (cs cs' : list Node) :
  LinkTag (MkNode ty d attrs cs) = LinkTag (MkNode ty' d' (link_attrs attrs) cs').
Proof.
  unfold LinkTag. simpl. symmetry. apply fold_LinkTag_step_link_attrs.
Qed.

(** ** tag_link.go: the contribution *)

(** X3: [Link.Contribute] writes no field but the favicon and the
    canonical URL: the twelve other fields, [Intent] among them, are what
    they were. *)
Theorem Link_Contribute_frame (link : Link) (og : OpenGraph) :
  let og' := (Link_Contribute link og).1 in
  og_Title og' = og_Title og /\
  og_Type og' = og_Type og /\
  og_Image og' = og_Image og /\
  og_URL og' = og_URL og /\
  og_Audio og' = og_Audio og /\
  og_Description og' = og_Description og /\
  og_Determiner og' = og_Determiner og /\
  og_Locale og' = og_Locale og /\
  og_LocaleAlt og' = og_LocaleAlt og /\
  og_SiteName og' = og_SiteName og /\
  og_Video og' = og_Video og /\
  og_Intent og' = og_Intent og.
Proof.
  unfold Link_Contribute. simpl.
  destruct (IsFavicon link); [repeat split|].
  destruct (IsCanonical link); repeat split.
Qed.

(** X4: contributions compose by overwriting.  A fragment contributed
    twice counts once; of two favicon fragments, and of two canonical
    fragments, the later one decides alone; a favicon fragment and a
    canonical fragment do not disturb each other, in either order. *)
Theorem Link_Contribute_compose (l1 l2 : Link) (og : OpenGraph) :
  Link_Contribute l1 (Link_Contribute l1 og).1 = Link_Contribute l1 og /\
  (IsFavicon l1 = true -> IsFavicon l2 = true ->
     Link_Contribute l2 (Link_Contribute l1 og).1 = Link_Contribute l2 og) /\
  (IsCanonical l1 = true -> IsCanonical l2 = true ->
     Link_Contribute l2 (Link_Contribute l1 og).1 = Link_Contribute l2 og) /\
  (IsFavicon l1 = true -> IsCanonical l2 = true ->
     Link_Contribute l2 (Link_Contribute l1 og).1
     = Link_Contribute l1 (Link_Contribute l2 og).1).
Proof.
  unfold Link_Contribute. simpl. split; [|split; [|split]].
  - destruct (IsFavicon l1); [reflexivity|].
    destruct (IsCanonical l1); reflexivity.
  - intros -> ->. reflexivity.
  - intros H1 H2.
    destruct (IsFavicon l1) eqn:E1.
    { apply favicon_not_canonical in E1. congruence. }
    destruct (IsFavicon l2) eqn:E2.
    { apply favicon_not_canonical in E2. congruence. }
    rewrite H1, H2. reflexivity.
  - intros H1 H2. rewrite H1.
    destruct (IsFavicon l2) eqn:E2.
    { apply favicon_not_canonical in E2. congruence. }
    rewrite H2. reflexivity.
Qed.

(** ** opengraph.go: walk, what it keeps *)

Section WalkInvariant.

Variable M T : Node -> OpenGraph -> OpenGraph * error.
Variable P : OpenGraph -> Prop.
Hypothesis M_keeps : forall n og, P og -> P (M n og).1.
Hypothesis T_keeps : forall n og, P og -> P (T n og).1.
Hypothesis Link_keeps : forall link og, P og -> P (Link_Contribute link og).1.

Lemma contribute_invariant (tag : Tag) (n : Node) (og : OpenGraph) :
  P og -> P (contribute M T tag n og).1.
Proof.
  destruct tag; simpl; [apply M_keeps | apply T_keeps | apply Link_keeps].
Qed.

Lemma walk_children_invariant (cs : list Node) :
  Forall (fun c => forall og, P og -> P (walk M T c og).1) cs ->
  forall og, P og -> P (walk_children M T cs og).
Proof.
  induction 1 as [|c cs Hc _ IH]; intros og Hog; simpl; [exact Hog|].
  apply IH, Hc, Hog.
Qed.

Lemma walk_invariant (n : Node) :
  forall og, P og -> P (walk M T n og).1.
Proof.
  induction n as [ty d a cs IH] using Node_forall_ind.
  intros og Hog. rewrite walk_eq.
  destruct (select _ _) as [tag|]; simpl.
  - apply contribute_invariant, Hog.
  - apply walk_children_invariant; [exact IH | exact Hog].
Qed.

End WalkInvariant.

(** X5: whatever the three contributions keep true of the aggregate, a
    walk keeps true of it, and so does [Parse], whether the parser
    succeeds or fails. *)
Theorem walk_keeps_invariant
    (M T : Node -> OpenGraph -> OpenGraph * error)
    (html_Parse : string -> Node + string)
    (P : OpenGraph -> Prop) (t : Node) (body : string) (og : OpenGraph) :
  (forall n og, P og -> P (M n og).1) ->
  (forall n og, P og -> P (T n og).1) ->
  (forall link og, P og -> P (Link_Contribute link og).1) ->
  P og ->
  P (walk M T t og).1 /\ P (Parse M T html_Parse og body).1.
Proof.
  intros HM HT HL Hog. split.
  - apply walk_invariant; assumption.
  - unfold Parse. destruct (html_Parse body) as [node | err]; simpl.
    + apply walk_invariant; assumption.
    + exact Hog.
Qed.

Lemma walk_keeps_invariant_witness :
  og_Title (walk Sample.quiet Sample.quiet Sample.two_canonical (New "u")).1 = "" /\
  og_Title (Parse Sample.quiet Sample.quiet Sample.no_parse (New "u") "").1 = "".
Proof.
  apply (walk_keeps_invariant Sample.quiet Sample.quiet Sample.no_parse
           (fun og => og_Title og = "")).
  - intros n og H. exact H.
  - intros n og H. exact H.
  - intros link og H.
    unfold Link_Contribute. simpl.
    destruct (IsFavicon link); [exact H|].
    destruct (IsCanonical link); exact H.
  - reflexivity.
Defined.

(** ** opengraph.go: walk, a tree without tags of interest *)

Lemma sum_list_with_zero_inv {A} (f : A -> nat) (l : list A) :
  sum_list_with f l = 0 -> forall x, x ∈ l -> f x = 0.
Proof.
  induction l as [|y l IH]; simpl; intros H x Hx.
  - inversion Hx.
  - apply elem_of_cons in Hx as [-> | Hx]; [lia|].
    apply IH; [lia | exact Hx].
Qed.

Lemma walk_children_fixed M T (cs : list Node) (og : OpenGraph) :
  (forall c, c ∈ cs -> walk M T c og = (og, None)) ->
  walk_children M T cs og = og.
Proof.
  induction cs as [|c cs IH]; intros H; simpl; [reflexivity|].
  rewrite (H c) by left. simpl. apply IH.
  intros c' Hc'. apply H. right. exact Hc'.
Qed.

(** X6: on a tree in which the [switch] selects no node ([meta]; [title]
    and [link] unless the flag is on), the walk returns the aggregate as
    it was, and nil, and calls no contribution. *)
Theorem walk_nothing_selected
    (M T : Node -> OpenGraph -> OpenGraph * error) (t : Node) (og : OpenGraph) :
  count_selected (in_Strict (og_Intent og)) t = 0 ->
  walkT M T [] t og = (og, None, []).
Proof.
  generalize (@nil nat).
  induction t as [ty d a cs IH] using Node_forall_ind.
  intros p Hcount. rewrite count_selected_eq in Hcount. rewrite walkT_eq.
  destruct (select _ _) as [tag|]; [simpl in Hcount; lia|].
  simpl in Hcount |- *.
  pose proof (sum_list_with_zero_inv _ _ Hcount) as Hzero.
  assert (E : forall i, walkT_children M T p i cs og = (og, [])).
  { clear Hcount. induction IH as [|c cs Hc _ IHcs]; intros i; simpl; [reflexivity|].
    rewrite (Hc (p ++ [i])) by (apply Hzero; left). simpl.
    rewrite IHcs; [reflexivity|]. intros x Hx. apply Hzero. right. exact Hx. }
  rewrite E. reflexivity.
Qed.

Lemma walk_nothing_selected_witness :
  walkT Sample.failing Sample.failing [] Sample.plain (New "u")
  = (New "u", None, []).
Proof.
  apply (walk_nothing_selected Sample.failing Sample.failing Sample.plain (New "u")).
  reflexivity.
Defined.

(** ** opengraph.go: walk, the strict flag on *)

Lemma select_strict (n : Node) (tag : Tag) :
  select true n = Some tag -> tag = TagMeta /\ Data n = HTMLMetaTag.
Proof.
  intros H. apply select_Some in H as [_ H].
  destruct tag; [done | destruct H; discriminate | destruct H; discriminate].
Qed.

Section Strict.

Variable M T T' : Node -> OpenGraph -> OpenGraph * error.
Hypothesis M_mode : keeps_mode M.

Lemma walkT_children_strict (p : path) (cs : list Node) :
  Forall (fun c => forall p og,
            in_Strict (og_Intent og) = true ->
            walkT M T p c og = walkT M T' p c og /\
            in_Strict (og_Intent (walkT M T p c og).1.1) = true /\
            Forall (fun x => Data x.2 = HTMLMetaTag) (walkT M T p c og).2) cs ->
  forall i og,
    in_Strict (og_Intent og) = true ->
    walkT_children M T p i cs og = walkT_children M T' p i cs og /\
    in_Strict (og_Intent (walkT_children M T p i cs og).1) = true /\
    Forall (fun x => Data x.2 = HTMLMetaTag) (walkT_children M T p i cs og).2.
Proof.
  induction 1 as [|c cs Hc _ IH]; intros i og Hs; simpl; [done|].
  destruct (Hc (p ++ [i]) og Hs) as (E1 & S1 & F1).
  destruct (IH (S i) _ S1) as (E2 & S2 & F2).
  rewrite <- E1, <- E2. split; [reflexivity|]. split; [exact S2|].
  apply Forall_app. done.
Qed.

Lemma walkT_strict (n : Node) :
  forall p og,
    in_Strict (og_Intent og) = true ->
    walkT M T p n og = walkT M T' p n og /\
    in_Strict (og_Intent (walkT M T p n og).1.1) = true /\
    Forall (fun x => Data x.2 = HTMLMetaTag) (walkT M T p n og).2.
Proof.
  induction n as [ty d a cs IH] using Node_forall_ind.
  intros p og Hs. rewrite !walkT_eq, Hs.
  destruct (select true _) as [tag|] eqn:Hsel.
  - apply select_strict in Hsel as [-> Hd]. simpl.
    split; [reflexivity|]. split; [rewrite M_mode; exact Hs|].
    constructor; [exact Hd | constructor].
  - destruct (walkT_children_strict p cs IH 0 og Hs) as (E & S' & F).
    simpl. rewrite <- E. done.
Qed.

End Strict.

(** X7: with the strict flag on and a [meta] contribution that leaves
    the flag alone, the walk does not depend on the [title] contribution,
    and every node it hands to a contribution is named [meta]. *)
Theorem walk_strict_meta_only
    (M T T' : Node -> OpenGraph -> OpenGraph * error) (t : Node) (og : OpenGraph) :
  keeps_mode M ->
  in_Strict (og_Intent og) = true ->
  walk M T t og = walk M T' t og /\
  trace M T t og = trace M T' t og /\
  (forall q n, (q, n) ∈ trace M T t og -> Data n = "meta").
Proof.
  intros HM Hs.
  destruct (walkT_strict M T T' HM t [] og Hs) as (E & _ & F).
  split; [|split].
  - rewrite <- !walkT_erase with (p := []). rewrite E. reflexivity.
  - unfold trace. rewrite E. reflexivity.
  - intros q n Hin. rewrite Forall_forall in F. exact (F (q, n) Hin).
Qed.

Lemma walk_strict_meta_only_witness :
  walk Sample.quiet Sample.failing Sample.title_only (set_Strict (New "u") true)
  = walk Sample.quiet Title_Contribute Sample.title_only (set_Strict (New "u") true).
Proof.
  destruct (walk_strict_meta_only Sample.quiet Sample.failing Title_Contribute
              Sample.title_only (set_Strict (New "u") true)
              quiet_keeps_mode eq_refl) as [E _].
  exact E.
Defined.

(** ** opengraph.go: walk, the aggregate from the log *)

Lemma replay_app M T (l1 l2 : list (path * Node)) (og : OpenGraph) :
  replay M T (l1 ++ l2) og = replay M T l2 (replay M T l1 og).
Proof. unfold replay. apply fold_left_app. Qed.

Lemma walkT_children_replay M T (p : path) (cs : list Node) :
  Forall (fun c => forall p og,
            replay M T (walkT M T p c og).2 og = (walkT M T p c og).1.1) cs ->
  forall i og,
    replay M T (walkT_children M T p i cs og).2 og
    = (walkT_children M T p i cs og).1.
Proof.
  induction 1 as [|c cs Hc _ IH]; intros i og; simpl; [reflexivity|].
  rewrite replay_app, Hc, IH. reflexivity.
Qed.

Lemma walkT_replay M T (n : Node) :
  forall p og, replay M T (walkT M T p n og).2 og = (walkT M T p n og).1.1.
Proof.
  induction n as [ty d a cs IH] using Node_forall_ind.
  intros p og. rewrite walkT_eq.
  destruct (select _ _) as [tag|] eqn:Hsel; simpl.
  - unfold replay_step. simpl. rewrite Hsel. reflexivity.
  - apply walkT_children_replay, IH.
Qed.

(** X8: the aggregate after a walk is the aggregate before it with the
    contributions of the logged nodes applied one after the other, in
    the order of the log; the walk does nothing else to it. *)
Theorem walk_is_replay_of_log
    (M T : Node -> OpenGraph -> OpenGraph * error) (t : Node) (og : OpenGraph) :
  replay M T (trace M T t og) og = (walk M T t og).1.
Proof.
  unfold trace. rewrite walkT_replay, walkT_erase. reflexivity.
Qed.

(** ** opengraph.go: Fetch and Parse *)

Section FetchFacts.

Variable M T : Node -> OpenGraph -> OpenGraph * error.
Variable html_Parse : string -> Node + string.
Variable http_NewRequest : string -> string -> Request + string.

(** X9: [Fetch] hands at most one request to the client, and only with
    a URL that is not empty; the request is the one [http.NewRequest]
    built for "GET" and [og.Intent.URL], with the context of the caller,
    or [context.Background()] when the caller gave nil. *)
Theorem Fetch_requests (d : Client) (og : OpenGraph) (ctx : option Context) :
  length (Fetch M T html_Parse http_NewRequest d og ctx).2 <= 1 /\
  (forall req, req ∈ (Fetch M T html_Parse http_NewRequest d og ctx).2 ->
     in_URL (og_Intent og) <> "" /\
     ReqCtx req = Some (default Background ctx) /\
     exists req0,
       http_NewRequest "GET" (in_URL (og_Intent og)) = inl req0 /\
       req = WithContext req0 (default Background ctx)).
Proof.
  unfold Fetch.
  destruct (String.eqb (in_URL (og_Intent og)) "") eqn:Eu; simpl.
  { split; [lia|]. intros req H. inversion H. }
  assert (Hu : in_URL (og_Intent og) <> "").
  { intros E. apply eqb_spec in E. congruence. }
  destruct (http_NewRequest "GET" (in_URL (og_Intent og))) as [req0 | e]; simpl.
  2: { split; [lia|]. intros req H. inversion H. }
  assert (Hlog : forall req,
            req ∈ [WithContext req0 (default Background ctx)] ->
            in_URL (og_Intent og) <> "" /\
            ReqCtx req = Some (default Background ctx) /\
            exists r0, @inl Request string req0 = inl r0 /\
                       req = WithContext r0 (default Background ctx)).
  { intros req H. apply list_elem_of_singleton in H. subst req.
    split; [exact Hu|]. split; [reflexivity|]. exists req0. done. }
  destruct (default d (in_HTTPClient (og_Intent og)) _) as [res | e]; simpl.
  2: { split; [lia | exact Hlog]. }
  destruct (String.prefix "text/html" (ContentType res)); simpl;
    (split; [lia | exact Hlog]).
Qed.

(** X10: a call of [Fetch] ends in one of three ways.  The URL is empty:
    the aggregate is untouched.  The request could not be built, the
    client failed, the content type does not start with "text/html", or
    the parser failed: an error, and the aggregate differs from what it
    was in [Intent.HTTPClient] at most, which holds the client that was
    given or else the default.  Otherwise the response was parsed and
    the result is that of [walk] on the tree. *)
Theorem Fetch_outcomes (d : Client) (og : OpenGraph) (ctx : option Context) :
  let client := default d (in_HTTPClient (og_Intent og)) in
  let og1 := set_HTTPClient og (Some client) in
  (in_URL (og_Intent og) = "" /\
   Fetch M T html_Parse http_NewRequest d og ctx = (og, Some "no URL given yet", [])) \/
  (in_URL (og_Intent og) <> "" /\
   exists e, (Fetch M T html_Parse http_NewRequest d og ctx).1 = (og1, Some e)) \/
  (in_URL (og_Intent og) <> "" /\
   exists req res node,
     client req = inl res /\
     String.prefix "text/html" (ContentType res) = true /\
     html_Parse (Body res) = inl node /\
     Fetch M T html_Parse http_NewRequest d og ctx = (walk M T node og1, [req])).
Proof.
  intros client og1. unfold Fetch. fold client. fold og1.
  destruct (String.eqb (in_URL (og_Intent og)) "") eqn:Eu.
  { left. apply eqb_spec in Eu. done. }
  right.
  assert (Hu : in_URL (og_Intent og) <> "").
  { intros E. apply eqb_spec in E. congruence. }
  replace (in_URL (og_Intent og1)) with (in_URL (og_Intent og)) by reflexivity.
  destruct (http_NewRequest "GET" (in_URL (og_Intent og))) as [req0 | e].
  2: { left. split; [exact Hu|]. exists e. reflexivity. }
  destruct (client (WithContext req0 (default Background ctx))) as [res | e] eqn:Ec.
  2: { left. split; [exact Hu|]. exists e. reflexivity. }
  destruct (String.prefix "text/html" (ContentType res)) eqn:Ep; simpl.
  2: { left. split; [exact Hu|]. eexists. reflexivity. }
  unfold Parse.
  destruct (html_Parse (Body res)) as [node | e] eqn:Eh.
  - right. split; [exact Hu|].
    exists (WithContext req0 (default Background ctx)), res, node. done.
  - left. split; [exact Hu|]. exists e. reflexivity.
Qed.

Lemma set_HTTPClient_twice (og : OpenGraph) (c : Client) :
  set_HTTPClient (set_HTTPClient og (Some c)) (Some c) = set_HTTPClient og (Some c).
Proof. reflexivity. Qed.

(** X11: nil stands for the default.  With a client in
    [Intent.HTTPClient], [http.DefaultClient] is not consulted; without
    one, and with a URL, [Fetch] is [Fetch] with the default client put
    there beforehand; and a nil context is [context.Background()]. *)
Theorem Fetch_defaults (d : Client) (og : OpenGraph) (ctx : option Context) :
  (forall c d', in_HTTPClient (og_Intent og) = Some c ->
     Fetch M T html_Parse http_NewRequest d og ctx = Fetch M T html_Parse http_NewRequest d' og ctx) /\
  (in_HTTPClient (og_Intent og) = None -> in_URL (og_Intent og) <> "" ->
     Fetch M T html_Parse http_NewRequest d og ctx = Fetch M T html_Parse http_NewRequest d (set_HTTPClient og (Some d)) ctx) /\
  Fetch M T html_Parse http_NewRequest d og None = Fetch M T html_Parse http_NewRequest d og (Some Background).
Proof.
  split; [|split].
  - intros c d' Hc. unfold Fetch. rewrite Hc. reflexivity.
  - intros Hc Hu. unfold Fetch. simpl. rewrite Hc. simpl.
    destruct (String.eqb (in_URL (og_Intent og)) "") eqn:Eu.
    { apply eqb_spec in Eu. contradiction. }
    reflexivity.
  - reflexivity.
Qed.

(** X12: [Parse] passes on the error of [html.Parse] and leaves the
    aggregate as it was; and when [html.Parse] answers with a document
    node, as it does, [Parse] returns nil whatever the contributions
    returned. *)
Theorem Parse_errors (og : OpenGraph) (body : string) :
  (forall e, html_Parse body = inr e -> Parse M T html_Parse og body = (og, Some e)) /\
  (forall node, html_Parse body = inl node ->
     Type_ node = DocumentNode -> (Parse M T html_Parse og body).2 = None) /\
  (forall node, html_Parse body = inl node -> Parse M T html_Parse og body = walk M T node og).
Proof.
  unfold Parse. split; [|split].
  - intros e ->. reflexivity.
  - intros node -> Hty. apply walk_descend_nil, select_not_element.
    rewrite Hty. discriminate.
  - intros node ->. reflexivity.
Qed.

End FetchFacts.

(** ** opengraph.go: FetchWithContext and the package's Fetch *)

Lemma Link_Contribute_intent (link : Link) (og : OpenGraph) :
  og_Intent (Link_Contribute link og).1 = og_Intent og.
Proof.
  unfold Link_Contribute. simpl.
  destruct (IsFavicon link); [reflexivity|].
  destruct (IsCanonical link); reflexivity.
Qed.

Lemma walk_intent M T (n : Node) (og : OpenGraph) :
  keeps_intent M -> keeps_intent T ->
  og_Intent (walk M T n og).1 = og_Intent og.
Proof.
  intros HM HT.
  apply (walk_invariant M T (fun og' => og_Intent og' = og_Intent og)).
  - intros m og' H. rewrite HM. exact H.
  - intros m og' H. rewrite HT. exact H.
  - intros l og' H. rewrite Link_Contribute_intent. exact H.
  - reflexivity.
Qed.

Lemma Fetch_intent M T html_Parse http_NewRequest (d : Client)
    (og : OpenGraph) (ctx : option Context) :
  keeps_intent M -> keeps_intent T ->
  in_URL (og_Intent og) <> "" ->
  og_Intent (Fetch M T html_Parse http_NewRequest d og ctx).1.1
  = MkIntent (in_URL (og_Intent og)) (in_Strict (og_Intent og))
      (Some (default d (in_HTTPClient (og_Intent og)))).
Proof.
  intros HM HT Hu. unfold Fetch.
  destruct (String.eqb (in_URL (og_Intent og)) "") eqn:Eu.
  { apply eqb_spec in Eu. contradiction. }
  simpl.
  destruct (http_NewRequest "GET" (in_URL (og_Intent og))) as [req0 | e];
    [|reflexivity].
  destruct (default d (in_HTTPClient (og_Intent og)) _) as [res | e];
    [|reflexivity].
  destruct (String.prefix "text/html" (ContentType res)); simpl; [|reflexivity].
  unfold Parse. destruct (html_Parse (Body res)) as [node | e]; [|reflexivity].
  rewrite walk_intent by assumption. reflexivity.
Qed.

(** X13: when the contributions for [meta] and [title] leave [Intent]
    alone, the aggregate that [FetchWithContext] and the package's
    [Fetch] return for a URL that is not empty carries that URL, has the
    strict flag off, and holds [http.DefaultClient] as its client: the
    two functions never walk in strict mode and never use another
    client. *)
Theorem FetchWithContext_intent
    (M T : Node -> OpenGraph -> OpenGraph * error)
    (html_Parse : string -> Node + string)
    (http_NewRequest : string -> string -> Request + string)
    (d : Client) (ctx : option Context) (rawurl : string) :
  keeps_intent M -> keeps_intent T ->
  rawurl <> "" ->
  og_Intent (FetchWithContext M T html_Parse http_NewRequest d ctx rawurl).1.1
    = MkIntent rawurl false (Some d) /\
  og_Intent (Fetch_rawurl M T html_Parse http_NewRequest d rawurl).1.1
    = MkIntent rawurl false (Some d).
Proof.
  intros HM HT Hu. unfold Fetch_rawurl, FetchWithContext.
  split; apply (Fetch_intent M T html_Parse http_NewRequest d (New rawurl));
    assumption.
Qed.

Lemma quiet_keeps_intent : keeps_intent Sample.quiet.
Proof. intros n og. reflexivity. Qed.

Lemma FetchWithContext_intent_witness :
  og_Intent
    (FetchWithContext Sample.quiet Sample.quiet
       (Sample.parse_to Sample.two_canonical) Sample.any_request
       (Sample.html_client "") None "u").1.1
  = MkIntent "u" false (Some (Sample.html_client "")).
Proof.
  destruct (FetchWithContext_intent Sample.quiet Sample.quiet
              (Sample.parse_to Sample.two_canonical) Sample.any_request
              (Sample.html_client "") None "u"
              quiet_keeps_intent quiet_keeps_intent) as [E _].
  - discriminate.
  - exact E.
Defined.

(** X14: a fetch that gets as far as the walk.  With a URL, a request
    that can be built and a client that answers with a content type
    beginning with "text/html" and a body that parses to a document,
    [Fetch] returns nil and the aggregate of the walk of that document,
    having made the one request. *)
Theorem Fetch_walks_the_document
    (M T : Node -> OpenGraph -> OpenGraph * error)
    (html_Parse : string -> Node + string)
    (http_NewRequest : string -> string -> Request + string)
    (d : Client) (og : OpenGraph) (ctx : option Context)
    (req0 : Request) (res : Response) (node : Node) :
  in_URL (og_Intent og) <> "" ->
  http_NewRequest "GET" (in_URL (og_Intent og)) = inl req0 ->
  default d (in_HTTPClient (og_Intent og))
    (WithContext req0 (default Background ctx)) = inl res ->
  String.prefix "text/html" (ContentType res) = true ->
  html_Parse (Body res) = inl node ->
  Type_ node = DocumentNode ->
  Fetch M T html_Parse http_NewRequest d og ctx
  = ((walk M T node
        (set_HTTPClient og (Some (default d (in_HTTPClient (og_Intent og)))))).1,
     None,
     [WithContext req0 (default Background ctx)]).
Proof.
  intros Hu Hreq Hres Hct Hparse Hty. unfold Fetch.
  destruct (String.eqb (in_URL (og_Intent og)) "") eqn:Eu.
  { apply eqb_spec in Eu. contradiction. }
  simpl. rewrite Hreq, Hres, Hct. simpl. unfold Parse. rewrite Hparse.
  f_equal. apply injective_projections; [reflexivity|]. simpl.
  apply walk_descend_nil, select_not_element. rewrite Hty. discriminate.
Qed.

Lemma Fetch_walks_the_document_witness :
  Fetch Sample.quiet Title_Contribute
    (Sample.parse_to Sample.title_only) Sample.any_request
    (Sample.html_client "<title>Page</title>") (New "u") None
  = (set_Title (set_HTTPClient (New "u")
                  (Some (Sample.html_client "<title>Page</title>"))) "Page",
     None,
     [MkRequest "GET" "u" (Some Background)]).
Proof.
  apply (Fetch_walks_the_document Sample.quiet Title_Contribute
           (Sample.parse_to Sample.title_only) Sample.any_request
           (Sample.html_client "<title>Page</title>") (New "u") None
           (MkRequest "GET" "u" None)
           (MkResponse "text/html; charset=utf-8" "<title>Page</title>")
           Sample.title_only).
  - discriminate.
  - reflexivity.
  - reflexivity.
  - reflexivity.
  - reflexivity.
  - reflexivity.
Defined.

(** ** tag_link.go: the two tests *)

(** X15: no fragment passes both [IsFavicon] and [IsCanonical], so the
    order of the two cases of the [switch] in [Link.Contribute] decides
    nothing: with the canonical case first the result is the same. *)
Theorem Link_Contribute_cases_exclusive (link : Link) (og : OpenGraph) :
  IsFavicon link && IsCanonical link = false /\
  Link_Contribute link og
  = (if IsCanonical link then set_CanonicalURL og (Href link)
     else if IsFavicon link then set_Favicon og (Href link)
     else og,
     None).
Proof.
  unfold Link_Contribute.
  destruct (IsFavicon link) eqn:Ef; simpl.
  - rewrite (favicon_not_canonical link Ef). done.
  - destruct (IsCanonical link); done.
Qed.

(** ** opengraph.go: walk, the calls and their order *)

Section Visits.

Variable M T : Node -> OpenGraph -> OpenGraph * error.











End Visits.


(** ** opengraph.go: walk, the strict flag and the place in the tree *)

Lemma Title_Contribute_keeps_mode : keeps_mode Title_Contribute.
Proof.
  intros n og. unfold Title_Contribute. simpl.
  destruct (String.eqb (og_Title og) ""); reflexivity.
Qed.

(** Nothing is selected: the walk changes nothing and returns nil. *)
Lemma walk_count_zero M T (t : Node) :
  forall og,
    count_selected (in_Strict (og_Intent og)) t = 0 ->
    walk M T t og = (og, None).
Proof.
  induction t as [ty d a cs IH] using Node_forall_ind.
  intros og Hcount. rewrite count_selected_eq in Hcount. rewrite walk_eq.
  destruct (select _ _) as [tag|]; [simpl in Hcount; lia|].
  simpl in Hcount |- *.
  rewrite walk_children_fixed; [reflexivity|].
  intros c Hc. rewrite Forall_forall in IH. apply (IH c Hc).
  exact (sum_list_with_zero_inv _ _ Hcount c Hc).
Qed.

Lemma trace_reached M T (t : Node) (og : OpenGraph) (q : path) (n : Node) :
  keeps_mode M -> keeps_mode T ->
  (q, n) ∈ trace M T t og <-> reached (in_Strict (og_Intent og)) t q n.
Proof.
  intros HM HT. unfold trace.
  destruct (walkT_targets M T HM HT t [] og) as [-> _].
  rewrite elem_of_targets. simpl. split.
  - intros (q' & -> & Hr). exact Hr.
  - intros Hr. exists q. done.
Qed.

(** A walk with one target is one contribution. *)
Lemma walk_single_target M T (t : Node) (og : OpenGraph) (q : path) (n : Node) :
  keeps_mode M -> keeps_mode T ->
  targets (in_Strict (og_Intent og)) [] t = [(q, n)] ->
  exists tag,
    select (in_Strict (og_Intent og)) n = Some tag /\
    (walk M T t og).1 = (contribute M T tag n og).1.
Proof.
  intros HM HT Htargets.
  assert (Hin : (q, n) ∈ targets (in_Strict (og_Intent og)) [] t).
  { rewrite Htargets. left. }
  apply elem_of_targets in Hin as (q' & _ & _ & [tag Htag] & _).
  exists tag. split; [exact Htag|].
  rewrite <- (walkT_erase M T t [] og), <- walkT_replay.
  destruct (walkT_targets M T HM HT t [] og) as [-> _].
  rewrite Htargets. unfold replay, replay_step. simpl. rewrite Htag. reflexivity.
Qed.

(** C4, as the code has it: when the contributions leave the strict flag
    alone, a [meta] element is handed to its contribution exactly when
    none of its proper ancestors is selected, and a [title] or [link]
    element exactly when the flag is off and none of its proper
    ancestors is selected; an element beneath a selected one is passed
    over with the flag on or off.  With the flag on, a tree without a
    [meta] element leaves a fresh aggregate as it was, the title empty;
    with the flag off, on a tree whose one target is a [title] element
    the aggregate is that of the title contribution on a fresh
    aggregate, and its title is the text of the element. *)
Theorem walk_strict_gate
    (M T : Node -> OpenGraph -> OpenGraph * error)
    (t : Node) (og : OpenGraph) (rawurl : string) :
  keeps_mode M -> keeps_mode T ->
  (forall q n,
     subtree t q = Some n -> Type_ n = ElementNode ->
     (Data n = "meta" ->
        ((q, n) ∈ trace M T t og <->
         nothing_selected_above (in_Strict (og_Intent og)) t q)) /\
     (Data n = "title" \/ Data n = "link" ->
        ((q, n) ∈ trace M T t og <->
         in_Strict (og_Intent og) = false /\
         nothing_selected_above (in_Strict (og_Intent og)) t q))) /\
  (count_selected true t = 0 ->
     walk M T t (set_Strict (New rawurl) true)
     = (set_Strict (New rawurl) true, None)) /\
  (forall q n,
     targets false [] t = [(q, n)] -> Data n = "title" ->
     (walk M T t (set_Strict (New rawurl) false)).1
       = (T n (set_Strict (New rawurl) false)).1 /\
     og_Title (walk M Title_Contribute t (set_Strict (New rawurl) false)).1
       = text_content n).
Proof.
  intros HM HT. split; [|split].
  - intros q n Hsub Hty. split.
    + intros Hd. rewrite (trace_reached M T t og q n HM HT). unfold reached.
      rewrite (select_meta _ n Hty Hd). split.
      * intros (_ & _ & H). exact H.
      * intros H. split; [exact Hsub|]. split; [eauto | exact H].
    + intros Hd. rewrite (trace_reached M T t og q n HM HT). unfold reached.
      assert (Hsel : select (in_Strict (og_Intent og)) n
                     = if in_Strict (og_Intent og) then None
                       else Some (if String.eqb (Data n) HTMLTitleTag
                                  then TagTitle else TagLink)).
      { destruct Hd as [Hd | Hd].
        - rewrite (select_title _ n Hty Hd), Hd. reflexivity.
        - rewrite (select_link _ n Hty Hd), Hd. reflexivity. }
      rewrite Hsel. destruct (in_Strict (og_Intent og)); split.
      * intros (_ & [x Hx] & _). discriminate Hx.
      * intros [Hf _]. discriminate Hf.
      * intros (_ & _ & H). done.
      * intros [_ H]. split; [exact Hsub|]. split; [eauto | exact H].
  - intros Hcount. apply walk_count_zero. exact Hcount.
  - intros q n Htargets Hd.
    assert (Hfresh : in_Strict (og_Intent (set_Strict (New rawurl) false)) = false)
      by reflexivity.
    assert (Htag : forall tag, select false n = Some tag -> tag = TagTitle).
    { intros tag Htag. apply select_Some in Htag as [_ Htag].
      destruct tag; [|reflexivity|]; rewrite Hd in Htag.
      - discriminate Htag.
      - destruct Htag as [Htag _]. discriminate Htag. }
    split.
    + destruct (walk_single_target M T t (set_Strict (New rawurl) false) q n HM HT)
        as (tag & Hsel & E); [exact Htargets|].
      rewrite E. rewrite (Htag tag Hsel). reflexivity.
    + destruct (walk_single_target M Title_Contribute t
                  (set_Strict (New rawurl) false) q n HM
                  Title_Contribute_keeps_mode)
        as (tag & Hsel & E); [exact Htargets|].
      rewrite E. rewrite (Htag tag Hsel). reflexivity.
Qed.

Lemma walk_strict_gate_witness :
  walk Sample.quiet Sample.quiet Sample.title_only (set_Strict (New "u") true)
    = (set_Strict (New "u") true, None) /\
  og_Title
    (walk Sample.quiet Title_Contribute Sample.title_only
       (set_Strict (New "u") false)).1 = "Page".
Proof.
  destruct (walk_strict_gate Sample.quiet Sample.quiet Sample.title_only
              (New "u") "u" quiet_keeps_mode quiet_keeps_mode)
    as (_ & Hstrict & Hlenient).
  split.
  - apply Hstrict. reflexivity.
  - destruct (Hlenient [0; 0; 0] Sample.title_Page eq_refl eq_refl) as [_ E].
    exact E.
Defined.

(** C4, as worded, fails: with the flag off, the [meta] element beneath
    the [title] element of a picture is not handed to its contribution. *)
Lemma meta_beneath_title_not_dispatched :
  ~ dispatch_decided_by_tag_and_flag.
Proof.
  intros H.
  destruct (H Sample.quiet Sample.quiet quiet_keeps_mode quiet_keeps_mode
              Sample.meta_beneath_title (New "u")
              [0; 1; 0; 0; 0] Sample.meta_og_title eq_refl eq_refl) as [Hmeta _].
  specialize (Hmeta eq_refl).
  apply list_elem_of_singleton in Hmeta. discriminate Hmeta.
Qed.
